(** * Rate limiter core of boulder's [ratelimits] package

    A shallow embedding of [ratelimits/limiter.go] and
    [ratelimits/source_redis.go], together with the properties of the
    Limiter facade: limit resolution, read-only checks, spends and refunds
    (single and batched), cancellation scoping and the error classification
    of the Redis source.

    Conventions.
    - A [time.Time] is the instant it denotes, in nanoseconds since the Unix
      epoch, as a [Z]; a [time.Duration] and an [int64] are [Z] as well.
      [limiter.go] itself performs no arithmetic on them besides comparisons,
      [min] and [max].
    - A Go [error] interface value is an [option errval]: [None] is [nil].
    - Go maps ([limits], the TATs of a batch) are [gmap string _].
    - Prometheus metrics are not part of the model; the clock reads made on
      their behalf are. *)

From Stdlib Require Import ZArith Lia.
From stdpp Require Import base option list strings gmap.

Local Open Scope Z_scope.

(** ** Time *)

Abbreviation Time := Z (only parsing).

(** [time.Time{}]: January 1, year 1, 00:00:00 UTC, as an instant relative to
    the Unix epoch. *)
Definition zeroTime : Time := -62135596800000000000.

Definition IsZero (t : Time) : bool := t =? zeroTime.

(** [t.After(u)] *)
Definition After (t u : Time) : bool := u <? t.

(** [math.MaxInt64] *)
Definition MaxInt64 : Z := 9223372036854775807.

(** ** Limit names *)

(** [type Name int]. The enumeration itself ([names.go]) is a parameter of the
    development: which values are valid and how they print. *)
Abbreviation Name := Z (only parsing).

Class NameEnum := {
  isValid : Name → bool;
  EnumString : Name → string
}.

(** ** Errors *)

(** The error values that reach the limiter and the Redis source. The first
    group are the package's own sentinels, the second the errors of the
    libraries underneath, the last an error that wraps another one (as
    [fmt.Errorf] with the verb [%w] builds, or any type with an
    [Unwrap() error] method). *)
Inductive errval : Type :=
  | ErrInvalidCost
  | ErrInvalidCostForCheck
  | ErrInvalidCostOverLimit
  | errZeroBucketsInBatch
  | errLimitDisabled
  | ErrBucketNotFound
  | errInvalidName (n : Name)
  | RedisError (msg : string)
  | DeadlineExceeded
  | Canceled
  | NetError (msg : string) (timeout : bool)
  | OtherError (msg : string)
  | Wrapped (msg : string) (inner : errval).

Abbreviation error := (option errval) (only parsing).

Global Instance errval_eq_dec : EqDecision errval.
Proof. solve_decision. Defined.

(** [redis.Nil], the go-redis reply for a key that does not exist: the
    constant [proto.RedisError("redis: nil")]. *)
Definition redis_Nil : errval := RedisError "redis: nil".

(** [errors.Is]'s loop over the chain of [err]: compare, then unwrap. None of
    the error types above has an [Is] method of its own. *)
Fixpoint errors_is (err target : errval) : bool :=
  if bool_decide (err = target) then true
  else match err with
       | Wrapped _ inner => errors_is inner target
       | _ => false
       end.

(** [errors.Is(err, target)]: when either side is [nil] the answer is
    [err == target]. *)
Definition errors_Is (err target : error) : bool :=
  match err, target with
  | Some e, Some t => errors_is e t
  | None, None => true
  | _, _ => false
  end.

(** [errors.As(err, &netErr)] for [var netErr net.Error]: the first error of
    the chain that implements [net.Error], that is, has [Timeout() bool] and
    [Temporary() bool]. [context.DeadlineExceeded] has both, and its
    [Timeout()] is [true]. The result is the [Timeout()] of what was found. *)
Fixpoint errors_As_netError (err : errval) : option bool :=
  match err with
  | NetError _ timeout => Some timeout
  | DeadlineExceeded => Some true
  | Wrapped _ inner => errors_As_netError inner
  | _ => None
  end.

(** ** Contexts *)

(** The [context.Context] values a request can carry, by how they were
    built. *)
Inductive context : Type :=
  | Background
  | WithCancel (parent : context)
  | WithDeadline (parent : context) (d : Time)
  | WithoutCancel (parent : context).

(** [ctx.Deadline()]. [context.WithDeadline] keeps the parent's deadline when
    it is the earlier one; the context [context.WithoutCancel] returns reports
    no deadline. *)
Fixpoint Deadline (ctx : context) : option Time :=
  match ctx with
  | Background => None
  | WithCancel parent => Deadline parent
  | WithDeadline parent d =>
      match Deadline parent with
      | Some d' => Some (Z.min d' d)
      | None => Some d
      end
  | WithoutCancel _ => None
  end.

(** Whether [ctx.Done()] is a channel that can be closed, by the client going
    away or by the deadline passing. For the context of
    [context.WithoutCancel] it is [nil]. *)
Definition cancelable (ctx : context) : bool :=
  match ctx with
  | Background => false
  | WithCancel _ => true
  | WithDeadline _ _ => true
  | WithoutCancel _ => false
  end.

(** ** Limits, buckets and decisions *)

(** Modelled from the spec: the [limit] struct of [limit.go], a file this
    development does not embed (section 3, "Limit": burst, count, period and
    the override flag; the emission interval is derived). [limiter.go] reads
    [Burst] and [isOverride]. *)
Record limit : Type := {
  Burst : Z;
  Count : Z;
  Period : Z;
  isOverride : bool
}.

(** [limit{}] *)
Definition limit_zero : limit :=
  {| Burst := 0; Count := 0; Period := 0; isOverride := false |}.

(** Modelled from the spec: [emission_interval = period / count]. *)
Definition emissionInterval (rl : limit) : Z := Period rl ÷ Count rl.

Global Instance limit_eq_dec : EqDecision limit.
Proof. solve_decision. Defined.

(** [type limits map[string]limit] *)
Abbreviation limits := (gmap string limit) (only parsing).

(** [Bucket] and [BucketWithCost] ([bucket.go]), by the fields [limiter.go]
    reads. *)
Record Bucket : Type := {
  b_name : Name;
  b_key : string
}.

Record BucketWithCost : Type := {
  name : Name;
  key : string;
  cost : Z
}.

Record Decision : Type := {
  Allowed : bool;
  Remaining : Z;
  RetryIn : Z;
  ResetIn : Z;
  newTAT : Time
}.

Global Instance Decision_eq_dec : EqDecision Decision.
Proof. solve_decision. Defined.

(** [disabledLimitDecision] *)
Definition disabledLimitDecision : Decision :=
  {| Allowed := true; Remaining := 0; RetryIn := 0; ResetIn := 0;
     newTAT := zeroTime |}.

(** The decision of a batch in which no bucket was evaluated: the initial
    values of the variables of [BatchSpend]. *)
Definition emptyBatchDecision : Decision :=
  {| Allowed := true; Remaining := MaxInt64; RetryIn := 0;
     ResetIn := 0; newTAT := zeroTime |}.

(** What a Limiter method returns: a pointer to a [Decision] (possibly
    [nil]) and an [error]. *)
Abbreviation ret := (option Decision * option errval)%type (only parsing).

(** ** The decision kernel *)

Definition clamp (lo hi x : Z) : Z := Z.max lo (Z.min hi x).

(** Modelled from the spec: the spend kernel of [gcra.go], a file this
    development does not embed (section 4.1, "Spend semantics", steps 1 to 7, over
    [(limit, stored TAT, cost, now)]). On an allowed spend [retry_in] is zero
    when the capacity left still affords [cost], and otherwise the wait until
    it does (section 3, "Decision"). *)
Definition spendKernel (rl : limit) (tat : Time) (cost now : Z) : Decision :=
  let ei := emissionInterval rl in
  let increment := cost * ei in
  let effective := Z.max tat now in
  let candidate := effective + increment in
  let threshold := now + Burst rl * ei in
  if threshold <? candidate then
    {| Allowed := false;
       Remaining := clamp 0 (Burst rl) ((threshold - effective) / ei);
       RetryIn := candidate - threshold;
       ResetIn := Z.max 0 (effective - now);
       newTAT := tat |}
  else
    {| Allowed := true;
       Remaining := clamp 0 (Burst rl) ((threshold - candidate) / ei);
       RetryIn := if threshold - candidate <? increment
                  then increment - (threshold - candidate) else 0;
       ResetIn := Z.max 0 (candidate - now);
       newTAT := candidate |}.

(** Modelled from the spec: the refund kernel of [gcra.go] (section 4.1,
    "Refund semantics", steps 1 to 5). *)
Definition refundKernel (rl : limit) (tat : Time) (cost now : Z) : Decision :=
  let ei := emissionInterval rl in
  let threshold := now + Burst rl * ei in
  if tat <=? now then
    {| Allowed := false;
       Remaining := clamp 0 (Burst rl) ((threshold - Z.max tat now) / ei);
       RetryIn := 0;
       ResetIn := Z.max 0 (Z.max tat now - now);
       newTAT := tat |}
  else
    let refund := cost * ei in
    let candidate := Z.max now (tat - refund) in
    {| Allowed := true;
       Remaining := clamp 0 (Burst rl) ((threshold - candidate) / ei);
       RetryIn := 0;
       ResetIn := Z.max 0 (candidate - now);
       newTAT := candidate |}.

(** ** The source *)

(** The [source] interface ([source.go]), by the methods [RedisSource]
    implements and the limiter calls. A method takes the state of the store
    and returns its result with the state after the call. *)
Class source (S : Type) := {
  source_BatchSet : context → gmap string Time → S → error * S;
  source_Get : context → string → S → (Time * error) * S;
  source_BatchGet : context → list string → S → (gmap string Time * error) * S;
  source_Set : context → string → Time → S → error * S;
  source_Delete : context → string → S → error * S;
  source_Ping : context → S → error * S
}.

(** The calls a limiter makes to its source, as they are recorded. *)
Inductive sourceOp : Type :=
  | OpGet (bucketKey : string)
  | OpSet (bucketKey : string) (tat : Time)
  | OpBatchGet (bucketKeys : list string)
  | OpBatchSet (buckets : gmap string Time)
  | OpDelete (bucketKey : string).

Record call : Type := Call { call_ctx : context; call_op : sourceOp }.

Definition isWrite (c : call) : bool :=
  match call_op c with
  | OpSet _ _ | OpBatchSet _ | OpDelete _ => true
  | OpGet _ | OpBatchGet _ => false
  end.

Definition isBatchSet (c : call) : bool :=
  match call_op c with
  | OpBatchSet _ => true
  | _ => false
  end.

(** ** The world a limiter runs in *)

(** What a [Limiter] holds by reference: its source and its clock. [calls] is
    the history of the calls made to the source, oldest first; no computation
    reads it. The clock shows [time]; each read first advances it by the next
    of [ticks] (none left: it stands still), so that successive reads never go
    back. *)
Record world (S : Type) : Type := World {
  w_source : S;
  calls : list call;
  w_time : Time;
  ticks : list N
}.
Arguments World {S}.
Arguments w_source {S}.
Arguments calls {S}.
Arguments w_time {S}.
Arguments ticks {S}.

(** Computations in a world. *)
Definition M (S A : Type) : Type := world S → A * world S.

Definition pure {S A} (a : A) : M S A := fun w => (a, w).

Definition bind {S A B} (m : M S A) (k : A → M S B) : M S B :=
  fun w => let (a, w') := m w in k a w'.

Declare Scope limiter_scope.
Delimit Scope limiter_scope with lim.
Notation "x <- c1 ;; c2" := (bind c1 (fun x => c2))
  (at level 100, c1 at next level, right associativity) : limiter_scope.
Local Open Scope limiter_scope.

Section Limiter.
Context `{names : NameEnum} {S : Type} `{src : source S}.

(** [l.clk.Now()] *)
Definition Now : M S Time := fun w =>
  let t := w_time w + Z.of_N (hd 0%N (ticks w)) in
  (t, World (w_source w) (calls w) t (tl (ticks w))).

(** A call of a source method: run it on the store and record it. *)
Definition invoke {A} (ctx : context) (op : sourceOp) (f : S → A * S) : M S A :=
  fun w =>
    let (a, s') := f (w_source w) in
    (a, World s' (calls w ++ [Call ctx op]) (w_time w) (ticks w)).

Definition Get (ctx : context) (bucketKey : string) : M S (Time * error) :=
  invoke ctx (OpGet bucketKey) (source_Get ctx bucketKey).

Definition Set_ (ctx : context) (bucketKey : string) (tat : Time) : M S error :=
  invoke ctx (OpSet bucketKey tat) (source_Set ctx bucketKey tat).

Definition BatchGet (ctx : context) (bucketKeys : list string)
  : M S (gmap string Time * error) :=
  invoke ctx (OpBatchGet bucketKeys) (source_BatchGet ctx bucketKeys).

Definition BatchSet (ctx : context) (buckets : gmap string Time) : M S error :=
  invoke ctx (OpBatchSet buckets) (source_BatchSet ctx buckets).

Definition Delete (ctx : context) (bucketKey : string) : M S error :=
  invoke ctx (OpDelete bucketKey) (source_Delete ctx bucketKey).

(** [maybeSpend(clk, rl, tat, cost)] and [maybeRefund(clk, rl, tat, cost)]:
    the kernels at the time the clock shows. *)
Definition maybeSpend (rl : limit) (tat : Time) (cost : Z) : M S Decision :=
  now <- Now ;; pure (spendKernel rl tat cost now).

Definition maybeRefund (rl : limit) (tat : Time) (cost : Z) : M S Decision :=
  now <- Now ;; pure (refundKernel rl tat cost now).

(** The [Limiter] struct: the limits it was configured with. Its source and
    clock are the world's. *)
Record Limiter : Type := {
  defaults : limits;
  overrides : limits
}.

Definition getLimit (l : Limiter) (name : Name) (bucketKey : string)
  : limit * error :=
  if negb (isValid name) then (limit_zero, Some (errInvalidName name))
  else
    match (if negb (String.eqb bucketKey "") then overrides l !! bucketKey
           else None) with
    | Some ol => (ol, None)
    | None =>
        match defaults l !! EnumString name with
        | Some dl => (dl, None)
        | None => (limit_zero, Some errLimitDisabled)
        end
    end.

Definition Check (l : Limiter) (ctx : context) (bucket : BucketWithCost)
  : M S ret :=
  if cost bucket <? 0 then pure (None, Some ErrInvalidCostForCheck)
  else
    let (limit, err) := getLimit l (name bucket) (key bucket) in
    if bool_decide (err ≠ None) then
      if errors_Is err (Some errLimitDisabled)
      then pure (Some disabledLimitDecision, None)
      else pure (None, err)
    else if Burst limit <? cost bucket
    then pure (None, Some ErrInvalidCostOverLimit)
    else
      let ctx := WithoutCancel ctx in
      r <- Get ctx (key bucket) ;;
      let (tat, err) := r in
      if bool_decide (err ≠ None) then
        if negb (errors_Is err (Some ErrBucketNotFound))
        then pure (None, err)
        else
          now <- Now ;;
          d <- maybeSpend limit now (cost bucket) ;;
          pure (Some d, None)
      else
        d <- maybeSpend limit tat (cost bucket) ;;
        pure (Some d, None).

(** The deferred update of the [spendLatency] histogram: of it, only the
    clock read of [l.clk.Since(start)] is kept. *)
Definition deferred {A} (body : M S A) : M S A :=
  r <- body ;;
  _ <- Now ;;
  pure r.

Definition initialize (l : Limiter) (ctx : context) (rl : limit)
    (bucket : BucketWithCost) : M S ret :=
  now <- Now ;;
  d <- maybeSpend rl now (cost bucket) ;;
  let ctx := WithoutCancel ctx in
  err <- Set_ ctx (key bucket) (newTAT d) ;;
  if bool_decide (err ≠ None) then pure (None, err)
  else pure (Some d, None).

Definition Spend (l : Limiter) (ctx : context) (bucket : BucketWithCost)
  : M S ret :=
  if cost bucket <=? 0 then pure (None, Some ErrInvalidCost)
  else
    let (limit, err) := getLimit l (name bucket) (key bucket) in
    if bool_decide (err ≠ None) then
      if errors_Is err (Some errLimitDisabled)
      then pure (Some disabledLimitDecision, None)
      else pure (None, err)
    else if Burst limit <? cost bucket
    then pure (None, Some ErrInvalidCostOverLimit)
    else
      start <- Now ;;
      deferred (
        let ctx := WithoutCancel ctx in
        r <- Get ctx (key bucket) ;;
        let (tat, err) := r in
        if bool_decide (err ≠ None) then
          if errors_Is err (Some ErrBucketNotFound) then
            r <- initialize l ctx limit bucket ;;
            let (d, err) := r in
            if bool_decide (err ≠ None) then pure (None, err)
            else pure (d, None)
          else pure (None, err)
        else
          d <- maybeSpend limit tat (cost bucket) ;;
          if negb (Allowed d) then pure (Some d, None)
          else
            err <- Set_ ctx (key bucket) (newTAT d) ;;
            if bool_decide (err ≠ None) then pure (None, err)
            else pure (Some d, None)).

(** The first loop of [BatchSpend] and [BatchRefund]: the keys of the
    buckets, unless one of them has a cost that is not positive. *)
Fixpoint collectKeys (buckets : list BucketWithCost) (bucketKeys : list string)
  : errval + list string :=
  match buckets with
  | [] => inr bucketKeys
  | bucket :: rest =>
      if cost bucket <=? 0 then inl ErrInvalidCost
      else collectKeys rest (bucketKeys ++ [key bucket])
  end.

(** One evaluation of a kernel inside a batch: the bucket, the limit it
    resolved to, the TAT handed to the kernel and the decision. *)
Record evaluation : Type := {
  ev_bucket : BucketWithCost;
  ev_limit : limit;
  ev_tat : Time;
  ev_decision : Decision
}.

(** The local variables of the second loop of [BatchSpend] and
    [BatchRefund]. [evaluated] is the history of the kernel evaluations made
    so far, oldest first; no computation reads it. *)
Record batch : Type := {
  allowed : bool;
  minRemaining : Z;
  maxRetryIn : Z;
  maxResetIn : Z;
  maxNewTAT : Time;
  newTATs : gmap string Time;
  evaluated : list evaluation
}.

Definition batch_init (allowed0 : bool) : batch :=
  {| allowed := allowed0; minRemaining := MaxInt64; maxRetryIn := 0;
     maxResetIn := 0; maxNewTAT := zeroTime; newTATs := ∅;
     evaluated := [] |}.

(** The end of the body of the second loop, once the decision [d] for
    [bucket] is known; [combine] is [&&] in [BatchSpend] and [||] in
    [BatchRefund]. *)
Definition update (combine : bool → bool → bool) (st : batch)
    (bucket : BucketWithCost) (rl : limit) (tat : Time) (d : Decision) : batch :=
  {| allowed := combine (allowed st) (Allowed d);
     minRemaining := Z.min (minRemaining st) (Remaining d);
     maxRetryIn := Z.max (maxRetryIn st) (RetryIn d);
     maxResetIn := Z.max (maxResetIn st) (ResetIn d);
     maxNewTAT := if After (newTAT d) (maxNewTAT st) then newTAT d
                  else maxNewTAT st;
     newTATs := if Allowed d then <[key bucket := newTAT d]> (newTATs st)
                else newTATs st;
     evaluated := evaluated st ++
                  [{| ev_bucket := bucket; ev_limit := rl; ev_tat := tat;
                      ev_decision := d |}] |}.

(** The consolidated decision for the batch. *)
Definition consolidated (st : batch) : Decision :=
  {| Allowed := allowed st; Remaining := minRemaining st;
     RetryIn := maxRetryIn st; ResetIn := maxResetIn st;
     newTAT := maxNewTAT st |}.

(** The second loop of [BatchSpend]. *)
Fixpoint spendLoop (l : Limiter) (tats : gmap string Time) (nowTAT : Time)
    (buckets : list BucketWithCost) (st : batch) : M S (error + batch) :=
  match buckets with
  | [] => pure (inr st)
  | bucket :: rest =>
      let tat := default zeroTime (tats !! key bucket) in
      let exists_ := bool_decide (is_Some (tats !! key bucket)) in
      let (limit, err) := getLimit l (name bucket) (key bucket) in
      if bool_decide (err ≠ None) then
        if errors_Is err (Some errLimitDisabled)
        then spendLoop l tats nowTAT rest st
        else pure (inl err)
      else
        let tat := if negb exists_ || IsZero tat then nowTAT else tat in
        d <- maybeSpend limit tat (cost bucket) ;;
        spendLoop l tats nowTAT rest (update andb st bucket limit tat d)
  end.

(** [BatchSpend] up to the end of its second loop: an early return, or the
    state the loop ends in. *)
Definition batchSpendEvaluate (l : Limiter) (ctx : context)
    (buckets : list BucketWithCost) : M S (ret + batch) :=
  if bool_decide (length buckets = 0%nat)
  then pure (inl (None, Some errZeroBucketsInBatch))
  else
    match collectKeys buckets [] with
    | inl err => pure (inl (None, Some err))
    | inr bucketKeys =>
        let ctx := WithoutCancel ctx in
        r <- BatchGet ctx bucketKeys ;;
        let (tats, err) := r in
        if bool_decide (err ≠ None) then pure (inl (None, err))
        else
          nowTAT <- Now ;;
          r <- spendLoop l tats nowTAT buckets (batch_init true) ;;
          match r with
          | inl err => pure (inl (None, err))
          | inr st => pure (inr st)
          end
    end.

(** The rest of [BatchSpend]: "conditionally, spend the batch". *)
Definition batchSpendPersist (ctx : context) (st : batch) : M S ret :=
  start <- Now ;;
  deferred (
    err <- (if bool_decide (0 < size (newTATs st))%nat && allowed st
            then BatchSet ctx (newTATs st) else pure None) ;;
    if bool_decide (err ≠ None) then pure (None, err)
    else pure (Some (consolidated st), None)).

Definition BatchSpend (l : Limiter) (ctx : context)
    (buckets : list BucketWithCost) : M S ret :=
  r <- batchSpendEvaluate l ctx buckets ;;
  match r with
  | inl early => pure early
  | inr st => batchSpendPersist (WithoutCancel ctx) st
  end.

Definition Refund (l : Limiter) (ctx : context) (bucket : BucketWithCost)
  : M S ret :=
  if cost bucket <=? 0 then pure (None, Some ErrInvalidCost)
  else
    let (limit, err) := getLimit l (name bucket) (key bucket) in
    if bool_decide (err ≠ None) then
      if errors_Is err (Some errLimitDisabled)
      then pure (Some disabledLimitDecision, None)
      else pure (None, err)
    else
      let ctx := WithoutCancel ctx in
      r <- Get ctx (key bucket) ;;
      let (tat, err) := r in
      if bool_decide (err ≠ None) then pure (None, err)
      else
        d <- maybeRefund limit tat (cost bucket) ;;
        if negb (Allowed d) then pure (Some d, None)
        else
          err <- Set_ ctx (key bucket) (newTAT d) ;;
          pure (Some d, err).

(** The second loop of [BatchRefund]. *)
Fixpoint refundLoop (l : Limiter) (tats : gmap string Time)
    (buckets : list BucketWithCost) (st : batch) : M S (error + batch) :=
  match buckets with
  | [] => pure (inr st)
  | bucket :: rest =>
      let tat := default zeroTime (tats !! key bucket) in
      let exists_ := bool_decide (is_Some (tats !! key bucket)) in
      let (limit, err) := getLimit l (name bucket) (key bucket) in
      if bool_decide (err ≠ None) then
        if errors_Is err (Some errLimitDisabled)
        then refundLoop l tats rest st
        else pure (inl err)
      else if negb exists_ || IsZero tat
      then refundLoop l tats rest st
      else
        d <- maybeRefund limit tat (cost bucket) ;;
        refundLoop l tats rest (update orb st bucket limit tat d)
  end.

(** [BatchRefund] up to the end of its second loop. *)
Definition batchRefundEvaluate (l : Limiter) (ctx : context)
    (buckets : list BucketWithCost) : M S (ret + batch) :=
  if bool_decide (length buckets = 0%nat)
  then pure (inl (None, Some errZeroBucketsInBatch))
  else
    match collectKeys buckets [] with
    | inl err => pure (inl (None, Some err))
    | inr bucketKeys =>
        let ctx := WithoutCancel ctx in
        r <- BatchGet ctx bucketKeys ;;
        let (tats, err) := r in
        if bool_decide (err ≠ None) then pure (inl (None, err))
        else
          r <- refundLoop l tats buckets (batch_init false) ;;
          match r with
          | inl err => pure (inl (None, err))
          | inr st => pure (inr st)
          end
    end.

(** The rest of [BatchRefund]: "conditionally, refund the batch". *)
Definition batchRefundPersist (ctx : context) (st : batch) : M S ret :=
  err <- (if bool_decide (0 < size (newTATs st))%nat
          then BatchSet ctx (newTATs st) else pure None) ;;
  if bool_decide (err ≠ None) then pure (None, err)
  else pure (Some (consolidated st), None).

Definition BatchRefund (l : Limiter) (ctx : context)
    (buckets : list BucketWithCost) : M S ret :=
  r <- batchRefundEvaluate l ctx buckets ;;
  match r with
  | inl early => pure early
  | inr st => batchRefundPersist (WithoutCancel ctx) st
  end.

Definition Reset (l : Limiter) (ctx : context) (bucket : Bucket) : M S error :=
  let ctx := WithoutCancel ctx in
  Delete ctx (b_key bucket).

End Limiter.

(** ** The Redis source *)

(** [resultForError]. The first test is written [errors.Is(redis.Nil, err)]
    and the last [errors.Is(err, redisErr)] with [redisErr] the zero value of
    the interface [redis.Error], that is [nil]. *)
Definition resultForError (err : error) : string :=
  if errors_Is (Some redis_Nil) err then "notFound"
  else if errors_Is err (Some DeadlineExceeded) then "deadlineExceeded"
  else if errors_Is err (Some Canceled) then "canceled"
  else if match err ≫= errors_As_netError with
          | Some timeout => timeout
          | None => false
          end
  then "timeout"
  else if errors_Is err None then "redisError"
  else "failed".

(** The sharded Redis behind a [redis.Ring], as far as the source can tell:
    the integer stored at each key, and for each round trip to come whether it
    fails and with what ([None]: it is served; none left: all are served). A
    round trip that fails leaves the keys as they were. *)
Record redis : Type := Redis {
  kv : gmap string Z;
  faults : list error
}.

Definition served (r : redis) (kv' : gmap string Z) : redis :=
  Redis kv' (tl (faults r)).

(** The reply to a [GET] that is served, read with [Int64()]. *)
Definition reply (r : redis) (k : string) : Z * error :=
  match kv r !! k with
  | Some v => (v, None)
  | None => (0, Some redis_Nil)
  end.

(** [client.Get(ctx, key).Int64()] *)
Definition client_Get (k : string) (r : redis) : (Z * error) * redis :=
  match faults r with
  | Some e :: _ => ((0, Some e), served r (kv r))
  | _ => (reply r k, served r (kv r))
  end.

(** [client.Set(ctx, key, value, 0).Err()] *)
Definition client_Set (k : string) (v : Z) (r : redis) : error * redis :=
  match faults r with
  | Some e :: _ => (Some e, served r (kv r))
  | _ => (None, served r (<[k := v]> (kv r)))
  end.

(** [client.Del(ctx, key).Err()] *)
Definition client_Del (k : string) (r : redis) : error * redis :=
  match faults r with
  | Some e :: _ => (Some e, served r (kv r))
  | _ => (None, served r (delete k (kv r)))
  end.

(** The first error among the commands of a pipeline, which is what [Exec]
    returns. *)
Fixpoint firstErr (results : list (Z * error)) : error :=
  match results with
  | [] => None
  | (_, Some e) :: _ => Some e
  | (_, None) :: rest => firstErr rest
  end.

(** A pipeline of [GET]s and its [Exec]: the results of the commands and the
    error of the whole. An empty pipeline makes no round trip. *)
Definition pipeline_Get (ks : list string) (r : redis)
  : (list (Z * error) * error) * redis :=
  match ks with
  | [] => (([], None), r)
  | _ =>
      match faults r with
      | Some e :: _ => ((map (fun _ => (0, Some e)) ks, Some e), served r (kv r))
      | _ => let results := map (reply r) ks in
             ((results, firstErr results), served r (kv r))
      end
  end.

(** A pipeline of [SET]s, one for each entry of [buckets], and its [Exec]. *)
Definition pipeline_Set (buckets : gmap string Z) (r : redis) : error * redis :=
  if bool_decide (size buckets = 0%nat) then (None, r)
  else
    match faults r with
    | Some e :: _ => (Some e, served r (kv r))
    | _ => (None, served r (buckets ∪ kv r))
    end.

(** [client.ForEachShard(ctx, ping)] *)
Definition client_Ping (r : redis) : error * redis :=
  match faults r with
  | Some e :: _ => (Some e, served r (kv r))
  | _ => (None, served r (kv r))
  end.

(** The [RedisSource] struct: the client, and what the [latency] histogram
    has observed so far, as the labels [(call, result)] of each observation,
    oldest first. *)
Record RedisSource : Type := {
  client : redis;
  latency : list (string * string)
}.

Definition observe (r : RedisSource) (c : redis) (call result : string)
  : RedisSource :=
  {| client := c; latency := latency r ++ [(call, result)] |}.

Definition RedisSource_Set (ctx : context) (bucketKey : string) (tat : Time)
    (r : RedisSource) : error * RedisSource :=
  let (err, c) := client_Set bucketKey tat (client r) in
  if bool_decide (err ≠ None)
  then (err, observe r c "set" (resultForError err))
  else (None, observe r c "set" "success").

Definition RedisSource_BatchSet (ctx : context) (buckets : gmap string Time)
    (r : RedisSource) : error * RedisSource :=
  let (err, c) := pipeline_Set buckets (client r) in
  if bool_decide (err ≠ None)
  then (err, observe r c "batchset" (resultForError err))
  else (None, observe r c "batchset" "success").

Definition RedisSource_Get (ctx : context) (bucketKey : string)
    (r : RedisSource) : (Time * error) * RedisSource :=
  let '((tatNano, err), c) := client_Get bucketKey (client r) in
  if bool_decide (err ≠ None) then
    if errors_Is err (Some redis_Nil)
    then ((zeroTime, Some ErrBucketNotFound), observe r c "get" "notFound")
    else ((zeroTime, err), observe r c "get" (resultForError err))
  else ((tatNano, None), observe r c "get" "success").

(** The loop of [BatchGet] over the results of the pipeline, from index [i]
    on: the TATs read, or the first error that is not [redis.Nil]. The
    pipeline has one result for each key. *)
Fixpoint batchGetLoop (bucketKeys : list string) (results : list (Z * error))
    (i : nat) (tats : gmap string Time) : gmap string Time + error :=
  match results with
  | [] => inl tats
  | (tatNano, err) :: rest =>
      if bool_decide (err ≠ None) then
        if errors_Is err (Some redis_Nil)
        then batchGetLoop bucketKeys rest (Datatypes.S i) tats
        else inr err
      else
        match bucketKeys !! i with
        | Some k => batchGetLoop bucketKeys rest (Datatypes.S i) (<[k := tatNano]> tats)
        | None => batchGetLoop bucketKeys rest (Datatypes.S i) tats
        end
  end.

Definition RedisSource_BatchGet (ctx : context) (bucketKeys : list string)
    (r : RedisSource) : (gmap string Time * error) * RedisSource :=
  let '((results, err), c) := pipeline_Get bucketKeys (client r) in
  let r1 := if bool_decide (err ≠ None)
            then observe r c "batchget" (resultForError err)
            else {| client := c; latency := latency r |} in
  if bool_decide (err ≠ None) && negb (errors_Is err (Some redis_Nil))
  then ((∅, err), r1)
  else
    match batchGetLoop bucketKeys results 0 ∅ with
    | inr err => ((∅, err), observe r1 c "batchget" (resultForError err))
    | inl tats => ((tats, None), observe r1 c "batchget" "success")
    end.

Definition RedisSource_Delete (ctx : context) (bucketKey : string)
    (r : RedisSource) : error * RedisSource :=
  let (err, c) := client_Del bucketKey (client r) in
  if bool_decide (err ≠ None)
  then (err, observe r c "delete" (resultForError err))
  else (None, observe r c "delete" "success").

Definition RedisSource_Ping (ctx : context) (r : RedisSource)
  : error * RedisSource :=
  let (err, c) := client_Ping (client r) in
  if bool_decide (err ≠ None)
  then (err, observe r c "ping" (resultForError err))
  else (None, observe r c "ping" "success").

(** The compile-time check that a [RedisSource] implements [source]. *)
Global Instance RedisSource_source : source RedisSource := {
  source_BatchSet := RedisSource_BatchSet;
  source_Get := RedisSource_Get;
  source_BatchGet := RedisSource_BatchGet;
  source_Set := RedisSource_Set;
  source_Delete := RedisSource_Delete;
  source_Ping := RedisSource_Ping
}.

(** ** A configuration for the examples *)

(** An enumeration of two limit names, [1] and [2]; every other value is
    invalid. *)
Definition exampleNames : NameEnum :=
  {| isValid n := (0 <? n) && (n <? 3);
     EnumString n := if n =? 1 then "NewRegistrationsPerIPAddress"
                     else "NewOrdersPerAccount" |}.

(** Burst 10, one request per second. *)
Definition perSecond : limit :=
  {| Burst := 10; Count := 10; Period := 10000000000; isOverride := false |}.

Definition perSecondOverride : limit :=
  {| Burst := 20; Count := 20; Period := 20000000000; isOverride := true |}.

(** A limiter with a default for name [1] only, and one override. *)
Definition exampleLimiter : Limiter :=
  {| defaults := {[ "NewRegistrationsPerIPAddress" := perSecond ]};
     overrides := {[ "NewRegistrationsPerIPAddress:10.0.0.2" := perSecondOverride ]} |}.

(** A Redis holding [kv], where the round trips to come fail as [faults] says,
    and a clock that shows [now] and advances by [ticks]. *)
Definition exampleWorld (kv : gmap string Z) (faults : list error)
    (now : Time) (ticks : list N) : world RedisSource :=
  World {| client := Redis kv faults; latency := [] |} [] now ticks.

Definition second : Z := 1000000000.

Definition bucketA (c : Z) : BucketWithCost :=
  {| name := 1; key := "NewRegistrationsPerIPAddress:10.0.0.1"; cost := c |}.

Definition bucketB (c : Z) : BucketWithCost :=
  {| name := 1; key := "NewRegistrationsPerIPAddress:10.0.0.3"; cost := c |}.

(** A bucket of name [2], for which [exampleLimiter] has no limit. *)
Definition bucketOff (c : Z) : BucketWithCost :=
  {| name := 2; key := "NewOrdersPerAccount:12345"; cost := c |}.

(** A Redis source over [kv] with the faults [faults] scripted, that has
    observed nothing yet. *)
Definition exampleRedis (kv : gmap string Z) (faults : list error) : RedisSource :=
  {| client := Redis kv faults; latency := [] |}.

(** A bucket with a name that is not a valid one. *)
Definition bucketBad (c : Z) : BucketWithCost :=
  {| name := 7; key := "Unknown:1"; cost := c |}.

(** ** Vocabulary of the properties *)

Section Vocabulary.
Context `{names : NameEnum} {S : Type} `{src : source S}.

(** The calls made between two worlds. *)
Definition newCalls (w w' : world S) : list call :=
  drop (length (calls w)) (calls w').

(** [m] keeps the history of calls and adds only calls that satisfy [P]. *)
Definition adds {A} (P : call → Prop) (m : M S A) : Prop :=
  ∀ w, ∃ new, calls (snd (m w)) = calls w ++ new ∧ Forall P new.

(** The calls between two worlds that write to the source. *)
Definition writes (w w' : world S) : list call :=
  filter (fun c => isWrite c = true) (newCalls w w').

(** The context [context.WithoutCancel] returns: it cannot be canceled, and
    it has no deadline. *)
Definition detached (c : call) : Prop :=
  cancelable (call_ctx c) = false ∧ Deadline (call_ctx c) = None.

Definition reads (c : call) : Prop := isWrite c = false.

Definition evAllowed (ev : evaluation) : bool := Allowed (ev_decision ev).

(** The new TAT of the last allowed evaluation of the key [k]. *)
Definition lastAllowed (k : string) (evs : list evaluation) : option Time :=
  (fun ev => newTAT (ev_decision ev)) <$>
    last (filter (fun ev => evAllowed ev = true ∧ key (ev_bucket ev) = k) evs).

(** Whether the limit of a bucket resolves. *)
Definition enabled (l : Limiter) (bucket : BucketWithCost) : Prop :=
  snd (getLimit l (name bucket) (key bucket)) = None.

(** Whether the limit of a bucket is disabled. *)
Definition disabled (l : Limiter) (bucket : BucketWithCost) : Prop :=
  snd (getLimit l (name bucket) (key bucket)) = Some errLimitDisabled.

(** The TAT of the key [k] in [BatchSpend], from the result [tats] of its
    batch-get: the one stored, or [nowTAT] for a key that is missing or holds
    the zero time. *)
Definition bucketTAT (tats : gmap string Time) (nowTAT : Time) (k : string) : Time :=
  match tats !! k with
  | Some tat => if IsZero tat then nowTAT else tat
  | None => nowTAT
  end.

(** An evaluation of [BatchSpend]: the limit is the one the bucket resolves
    to, the TAT is the one of the bucket's key, and the decision is the spend
    kernel's, at some time between [t] and [t']. *)
Definition spendEvaluation (l : Limiter) (tats : gmap string Time)
    (nowTAT t t' : Time) (ev : evaluation) : Prop :=
  getLimit l (name (ev_bucket ev)) (key (ev_bucket ev)) = (ev_limit ev, None)
  ∧ ev_tat ev = bucketTAT tats nowTAT (key (ev_bucket ev))
  ∧ ∃ now, t ≤ now ≤ t'
      ∧ ev_decision ev
        = spendKernel (ev_limit ev) (ev_tat ev) (cost (ev_bucket ev)) now.

(** An evaluation of [BatchRefund]: the key is one the batch-get found, with
    a TAT that is not the zero time, and the decision is the refund
    kernel's. *)
Definition refundEvaluation (l : Limiter) (tats : gmap string Time)
    (t t' : Time) (ev : evaluation) : Prop :=
  getLimit l (name (ev_bucket ev)) (key (ev_bucket ev)) = (ev_limit ev, None)
  ∧ tats !! key (ev_bucket ev) = Some (ev_tat ev)
  ∧ IsZero (ev_tat ev) = false
  ∧ ∃ now, t ≤ now ≤ t'
      ∧ ev_decision ev
        = refundKernel (ev_limit ev) (ev_tat ev) (cost (ev_bucket ev)) now.

(** Whether [BatchRefund] evaluates a bucket: its limit resolves, and the
    batch-get found its key with a TAT that is not the zero time. *)
Definition refundable (l : Limiter) (tats : gmap string Time)
    (bucket : BucketWithCost) : Prop :=
  enabled l bucket ∧ IsZero <$> tats !! key bucket = Some false.

(** What relates the TATs to write to the history of evaluations. *)
Definition tracked (st : batch) : Prop :=
  ∀ k, newTATs st !! k = lastAllowed k (evaluated st).

Global Instance enabled_dec l bucket : base.Decision (enabled l bucket).
Proof. unfold enabled. apply _. Defined.

Global Instance refundable_dec l tats bucket :
  base.Decision (refundable l tats bucket).
Proof. unfold refundable. apply _. Defined.

(** The decisions of the evaluations made in a batch, oldest first. *)
Definition decisions (st : batch) : list Decision :=
  map ev_decision (evaluated st).

(** What relates the consolidated values to the history of evaluations: the
    least of the remaining capacities, starting from [math.MaxInt64]; the
    greatest of the waits, starting from zero; the latest of the new TATs,
    starting from the zero time. *)
Definition aggregated (st : batch) : Prop :=
  minRemaining st = foldr Z.min MaxInt64 (map Remaining (decisions st))
  ∧ maxRetryIn st = foldr Z.max 0 (map RetryIn (decisions st))
  ∧ maxResetIn st = foldr Z.max 0 (map ResetIn (decisions st))
  ∧ maxNewTAT st = foldr Z.max zeroTime (map newTAT (decisions st)).

(** A Redis that serves every round trip to come. *)
Definition serving (r : RedisSource) : Prop :=
  Forall (fun f => f = None) (faults (client r)).

End Vocabulary.

(** * Properties *)

Arguments errors_Is : simpl never.
Arguments spendKernel : simpl never.
Arguments refundKernel : simpl never.
Arguments getLimit : simpl never.
Arguments resultForError : simpl never.

(** ** The kernels on the scenarios of the specification *)

(** Scenarios 2 to 4: burst 10, one request per second, after a first spend of
    three. Spending eight at once is denied, with seven remaining and a second
    to wait; spending five, five seconds later, is allowed and leaves five;
    refunding a hundred brings the TAT back to now, not before. *)
Example spendKernel_exhaustion :
  spendKernel perSecond (3 * second) 8 0
  = {| Allowed := false; Remaining := 7; RetryIn := 1 * second;
       ResetIn := 3 * second; newTAT := 3 * second |}.
Proof. reflexivity. Qed.

Example spendKernel_refill :
  spendKernel perSecond (3 * second) 5 (5 * second)
  = {| Allowed := true; Remaining := 5; RetryIn := 0;
       ResetIn := 5 * second; newTAT := 10 * second |}.
Proof. reflexivity. Qed.

Example refundKernel_partial :
  refundKernel perSecond (3 * second) 100 0
  = {| Allowed := true; Remaining := 10; RetryIn := 0; ResetIn := 0;
       newTAT := 0 |}.
Proof. reflexivity. Qed.

(** ** Limit resolution *)

Section Resolution.
Context `{names : NameEnum}.

Lemma getLimit_override (l : Limiter) (n : Name) (bucketKey : string) (ol : limit) :
  isValid n = true → bucketKey ≠ "" → overrides l !! bucketKey = Some ol →
  getLimit l n bucketKey = (ol, None).
Proof.
  intros Hv Hk Ho. unfold getLimit. rewrite Hv. simpl.
  destruct (String.eqb_spec bucketKey "") as [-> | _]; [done|].
  simpl. by rewrite Ho.
Qed.

Lemma getLimit_no_override (l : Limiter) (n : Name) (bucketKey : string) :
  isValid n = true → bucketKey = "" ∨ overrides l !! bucketKey = None →
  getLimit l n bucketKey =
    match defaults l !! EnumString n with
    | Some dl => (dl, None)
    | None => (limit_zero, Some errLimitDisabled)
    end.
Proof.
  intros Hv Hk. unfold getLimit. rewrite Hv. simpl.
  destruct (String.eqb_spec bucketKey "") as [-> | Hne]; simpl; [done|].
  destruct Hk as [? | ->]; done.
Qed.

(** The only errors [getLimit] returns. *)
Lemma getLimit_error (l : Limiter) (n : Name) (bucketKey : string) (rl : limit) (e : errval) :
  getLimit l n bucketKey = (rl, Some e) →
  rl = limit_zero ∧
  (e = errLimitDisabled ∧ isValid n = true ∨ e = errInvalidName n ∧ isValid n = false).
Proof.
  unfold getLimit. destruct (isValid n); simpl.
  - destruct (if negb _ then _ else _); [congruence|].
    destruct (defaults l !! _); [congruence|].
    intros [= <- <-]. auto.
  - intros [= <- <-]. auto.
Qed.

(** C7. For a valid name, [getLimit] returns the override limit when the key
    is not empty and the overrides have it, otherwise the default limit of the
    name when the defaults have it, otherwise the disabled sentinel
    [errLimitDisabled]; for an invalid name it returns an error that is not the
    disabled sentinel, so that callers return it as an error. *)
Theorem getLimit_resolution (l : Limiter) (n : Name) (bucketKey : string) :
  (isValid n = true →
     (∀ ol, bucketKey ≠ "" → overrides l !! bucketKey = Some ol →
            getLimit l n bucketKey = (ol, None))
   ∧ (∀ dl, bucketKey = "" ∨ overrides l !! bucketKey = None →
            defaults l !! EnumString n = Some dl →
            getLimit l n bucketKey = (dl, None))
   ∧ (bucketKey = "" ∨ overrides l !! bucketKey = None →
      defaults l !! EnumString n = None →
      getLimit l n bucketKey = (limit_zero, Some errLimitDisabled)))
  ∧ (isValid n = false →
     getLimit l n bucketKey = (limit_zero, Some (errInvalidName n))
     ∧ errors_Is (Some (errInvalidName n)) (Some errLimitDisabled) = false).
Proof.
  split.
  - intros Hv. repeat split.
    + intros ol. by apply getLimit_override.
    + intros dl Hk Hd. rewrite getLimit_no_override by done. by rewrite Hd.
    + intros Hk Hd. rewrite getLimit_no_override by done. by rewrite Hd.
  - intros Hv. split; [|done].
    unfold getLimit. by rewrite Hv.
Qed.

End Resolution.

Lemma getLimit_resolution_witness :
  getLimit (names := exampleNames) exampleLimiter 1
    "NewRegistrationsPerIPAddress:10.0.0.2" = (perSecondOverride, None)
  ∧ getLimit (names := exampleNames) exampleLimiter 1
      "NewRegistrationsPerIPAddress:10.0.0.1" = (perSecond, None)
  ∧ getLimit (names := exampleNames) exampleLimiter 1 "" = (perSecond, None)
  ∧ getLimit (names := exampleNames) exampleLimiter 2
      "NewOrdersPerAccount:12345" = (limit_zero, Some errLimitDisabled)
  ∧ getLimit (names := exampleNames) exampleLimiter 7 "x"
      = (limit_zero, Some (errInvalidName 7)).
Proof.
  split; [|split; [|split; [|split]]].
  - apply (proj1 (proj1 (getLimit_resolution (names := exampleNames)
                           exampleLimiter 1 _) eq_refl));
      [done|reflexivity].
  - apply (proj1 (proj2 (proj1 (getLimit_resolution (names := exampleNames)
                                  exampleLimiter 1 _) eq_refl)));
      [by right|reflexivity].
  - apply (proj1 (proj2 (proj1 (getLimit_resolution (names := exampleNames)
                                  exampleLimiter 1 _) eq_refl)));
      [by left|reflexivity].
  - apply (proj2 (proj2 (proj1 (getLimit_resolution (names := exampleNames)
                                  exampleLimiter 2 _) eq_refl)));
      [by right|reflexivity].
  - apply (proj2 (getLimit_resolution (names := exampleNames)
                    exampleLimiter 7 _) eq_refl).
Defined.

(** ** Error classification of the Redis source *)

(** [redis.Nil] has nothing to unwrap: with the arguments in the order
    [errors.Is(redis.Nil, err)], the test holds of [redis.Nil] itself only. *)
Lemma errors_Is_Nil_swapped (e : errval) :
  errors_Is (Some redis_Nil) (Some e) = bool_decide (e = redis_Nil).
Proof.
  unfold errors_Is, redis_Nil. simpl.
  repeat case_bool_decide; congruence.
Qed.

(** The last test of [resultForError] never holds of an error. *)
Lemma resultForError_not_redisError (e : errval) :
  resultForError (Some e) ≠ "redisError".
Proof.
  unfold resultForError.
  repeat (case_match; try discriminate).
Qed.

Lemma resultForError_Nil : resultForError (Some redis_Nil) = "notFound".
Proof. reflexivity. Qed.

(** The three tests in the middle are as intended: deadline, cancellation
    and network timeout, on whatever wraps them. *)
Lemma resultForError_deadlineExceeded (e : errval) :
  errors_Is (Some e) (Some DeadlineExceeded) = true →
  resultForError (Some e) = "deadlineExceeded".
Proof.
  intros H. unfold resultForError. rewrite errors_Is_Nil_swapped, H.
  case_bool_decide as Hn; [|done].
  subst e. discriminate H.
Qed.

Lemma resultForError_canceled (e : errval) :
  errors_Is (Some e) (Some Canceled) = true →
  errors_Is (Some e) (Some DeadlineExceeded) = false →
  resultForError (Some e) = "canceled".
Proof.
  intros H H'. unfold resultForError. rewrite errors_Is_Nil_swapped, H, H'.
  case_bool_decide as Hn; [|done].
  subst e. discriminate H.
Qed.

(** C4. [resultForError] labels a Redis server error "failed" and not
    "redisError", and an error that wraps [redis.Nil] "failed" and not
    "notFound"; a [Get] that the server answers with an error is observed in
    the latency histogram under [("get", "failed")]. *)
Theorem resultForError_misclassifies :
  resultForError (Some (RedisError "WRONGTYPE Operation against a key holding the wrong kind of value"))
    = "failed"
  ∧ errors_Is (Some (Wrapped "redis: get" redis_Nil)) (Some redis_Nil) = true
  ∧ resultForError (Some (Wrapped "redis: get" redis_Nil)) = "failed"
  ∧ latency (snd (RedisSource_Get Background "NewRegistrationsPerIPAddress:10.0.0.1"
       {| client := Redis ∅ [Some (RedisError "WRONGTYPE Operation against a key holding the wrong kind of value")];
          latency := [] |}))
    = [("get", "failed")].
Proof. repeat split. Qed.

(** ** Calls to the source *)

Section Calls.
Context `{names : NameEnum} {S : Type} `{src : source S}.

Lemma adds_newCalls {A} (P : call → Prop) (m : M S A) (w : world S) :
  adds P m → Forall P (newCalls w (snd (m w))).
Proof.
  intros H. destruct (H w) as (new & E & HP).
  unfold newCalls. by rewrite E, drop_app_length.
Qed.

Lemma adds_pure {A} (P : call → Prop) (a : A) : adds (S := S) P (pure a).
Proof. intros w. exists []. simpl. by rewrite app_nil_r. Qed.

Lemma adds_bind {A B} (P : call → Prop) (m : M S A) (k : A → M S B) :
  adds P m → (∀ a, adds P (k a)) → adds P (bind m k).
Proof.
  intros Hm Hk w. unfold bind.
  destruct (Hm w) as (n1 & E1 & H1). destruct (m w) as [a w1]. simpl in E1.
  destruct (Hk a w1) as (n2 & E2 & H2).
  exists (n1 ++ n2). rewrite E2, E1, app_assoc. split; [done|].
  by apply Forall_app.
Qed.

Lemma adds_Now (P : call → Prop) : adds (S := S) P Now.
Proof. intros w. exists []. simpl. by rewrite app_nil_r. Qed.

Lemma adds_invoke {A} (P : call → Prop) (ctx : context) (op : sourceOp)
    (f : S → A * S) :
  P (Call ctx op) → adds P (invoke ctx op f).
Proof.
  intros HP w. exists [Call ctx op]. unfold invoke.
  destruct (f (w_source w)). simpl. split; [done|]. by constructor.
Qed.

Lemma adds_maybeSpend (P : call → Prop) (rl : limit) (tat : Time) (c : Z) :
  adds (S := S) P (maybeSpend rl tat c).
Proof. apply adds_bind; [apply adds_Now|intros; apply adds_pure]. Qed.

Lemma adds_maybeRefund (P : call → Prop) (rl : limit) (tat : Time) (c : Z) :
  adds (S := S) P (maybeRefund rl tat c).
Proof. apply adds_bind; [apply adds_Now|intros; apply adds_pure]. Qed.

Lemma adds_deferred {A} (P : call → Prop) (body : M S A) :
  adds P body → adds P (deferred body).
Proof.
  intros H. apply adds_bind; [done|]. intros.
  apply adds_bind; [apply adds_Now|intros; apply adds_pure].
Qed.

End Calls.

Ltac adds_step :=
  first
    [ apply adds_pure | apply adds_Now
    | apply adds_invoke; done
    | apply adds_bind; [|intros ?]
    | case_match ].

Ltac adds_tac := repeat adds_step.

Section Detached.
Context `{names : NameEnum} {S : Type} `{src : source S}.

Lemma spendLoop_adds (P : call → Prop) (l : Limiter) (tats : gmap string Time)
    (nowTAT : Time) (buckets : list BucketWithCost) (st : batch) :
  adds (S := S) P (spendLoop l tats nowTAT buckets st).
Proof.
  revert st. induction buckets as [|bucket rest IH]; intros st; simpl.
  - apply adds_pure.
  - adds_tac; apply IH.
Qed.

Lemma refundLoop_adds (P : call → Prop) (l : Limiter) (tats : gmap string Time)
    (buckets : list BucketWithCost) (st : batch) :
  adds (S := S) P (refundLoop l tats buckets st).
Proof.
  revert st. induction buckets as [|bucket rest IH]; intros st; simpl.
  - apply adds_pure.
  - adds_tac; apply IH.
Qed.

Lemma Check_adds_detached (l : Limiter) (ctx : context) (bucket : BucketWithCost) :
  adds (S := S) detached (Check l ctx bucket).
Proof. unfold Check, Get. adds_tac. Qed.

Lemma Spend_adds_detached (l : Limiter) (ctx : context) (bucket : BucketWithCost) :
  adds (S := S) detached (Spend l ctx bucket).
Proof. unfold Spend, initialize, Get, Set_. adds_tac. Qed.

Lemma Refund_adds_detached (l : Limiter) (ctx : context) (bucket : BucketWithCost) :
  adds (S := S) detached (Refund l ctx bucket).
Proof. unfold Refund, Get, Set_. adds_tac. Qed.

Lemma BatchSpend_adds_detached (l : Limiter) (ctx : context)
    (buckets : list BucketWithCost) :
  adds (S := S) detached (BatchSpend l ctx buckets).
Proof.
  unfold BatchSpend, batchSpendEvaluate, batchSpendPersist, BatchGet, BatchSet.
  adds_tac; apply spendLoop_adds.
Qed.

Lemma BatchRefund_adds_detached (l : Limiter) (ctx : context)
    (buckets : list BucketWithCost) :
  adds (S := S) detached (BatchRefund l ctx buckets).
Proof.
  unfold BatchRefund, batchRefundEvaluate, batchRefundPersist, BatchGet, BatchSet.
  adds_tac; apply refundLoop_adds.
Qed.

Lemma Reset_adds_detached (l : Limiter) (ctx : context) (bucket : Bucket) :
  adds (S := S) detached (Reset l ctx bucket).
Proof. unfold Reset, Delete. adds_tac. Qed.

(** C8, as the code has it. In every operation of the limiter, every call to
    the source receives a context that cannot be canceled and that has no
    deadline: the one [context.WithoutCancel] returns. *)
Theorem source_calls_detached (l : Limiter) (ctx : context)
    (bucket : BucketWithCost) (buckets : list BucketWithCost) (b : Bucket)
    (w : world S) :
  Forall detached (newCalls w (snd (Check l ctx bucket w)))
  ∧ Forall detached (newCalls w (snd (Spend l ctx bucket w)))
  ∧ Forall detached (newCalls w (snd (BatchSpend l ctx buckets w)))
  ∧ Forall detached (newCalls w (snd (Refund l ctx bucket w)))
  ∧ Forall detached (newCalls w (snd (BatchRefund l ctx buckets w)))
  ∧ Forall detached (newCalls w (snd (Reset l ctx b w))).
Proof.
  repeat split; apply adds_newCalls.
  - apply Check_adds_detached.
  - apply Spend_adds_detached.
  - apply BatchSpend_adds_detached.
  - apply Refund_adds_detached.
  - apply BatchRefund_adds_detached.
  - apply Reset_adds_detached.
Qed.

End Detached.

(** C8, as stated, at a request whose context has a deadline five seconds
    away: the [Get] of [Check] receives a context without that deadline. *)
Lemma Check_drops_deadline :
  let ctx := WithDeadline (WithCancel Background) (5 * second) in
  let w := exampleWorld ∅ [] 0 [] in
  Deadline ctx = Some (5 * second)
  ∧ calls (snd (Check (names := exampleNames) exampleLimiter ctx (bucketA 1) w))
    = [Call (WithoutCancel ctx) (OpGet (key (bucketA 1)))]
  ∧ Deadline (WithoutCancel ctx) ≠ Deadline ctx.
Proof. repeat split. vm_compute. discriminate. Qed.

(** ** Single-bucket operations *)

Section Single.
Context `{names : NameEnum} {S : Type} `{src : source S}.

(** C1, as the code has it. A [Refund] with a positive cost on a bucket whose
    limit is enabled, when the source reports the key as not found, returns no
    decision and the error of the source as it is; its only call to the source
    is the [Get]. *)
Theorem Refund_not_found (l : Limiter) (ctx : context) (bucket : BucketWithCost)
    (w : world S) (rl : limit) (tat : Time) (e : errval) (s' : S) :
  0 < cost bucket →
  getLimit l (name bucket) (key bucket) = (rl, None) →
  source_Get (WithoutCancel ctx) (key bucket) (w_source w) = ((tat, Some e), s') →
  errors_Is (Some e) (Some ErrBucketNotFound) = true →
  fst (Refund l ctx bucket w) = (None, Some e)
  ∧ newCalls w (snd (Refund l ctx bucket w))
    = [Call (WithoutCancel ctx) (OpGet (key bucket))]
  ∧ Forall reads (newCalls w (snd (Refund l ctx bucket w)))
  ∧ w_source (snd (Refund l ctx bucket w)) = s'.
Proof.
  intros Hc Hl Hg _.
  unfold Refund. rewrite Hl.
  destruct (Z.leb_spec (cost bucket) 0); [lia|].
  simpl. unfold bind, Get, invoke, newCalls. rewrite Hg. simpl.
  rewrite drop_app_length. repeat split.
  by repeat constructor.
Qed.




End Single.

Lemma Refund_not_found_witness :
  fst (Refund (names := exampleNames) exampleLimiter Background (bucketA 1)
         (exampleWorld ∅ [] 0 []))
  = (None, Some ErrBucketNotFound).
Proof.
  eapply (Refund_not_found (names := exampleNames) exampleLimiter Background
            (bucketA 1) (exampleWorld ∅ [] 0 []));
    [reflexivity|reflexivity|reflexivity|reflexivity].
Defined.

(** C1, as stated, at a bucket that was never spent from: the [Refund]
    returns the error [ErrBucketNotFound], and no decision, denied or not. *)
Lemma Refund_not_found_is_an_error :
  let r := fst (Refund (names := exampleNames) exampleLimiter Background
                  (bucketA 1) (exampleWorld ∅ [] 0 [])) in
  r = (None, Some ErrBucketNotFound)
  ∧ ¬ ∃ d, r = (Some d, None) ∧ Allowed d = false.
Proof.
  split; [reflexivity|].
  intros (d & Hr & _). vm_compute in Hr. discriminate Hr.
Qed.


(** ** [Check] reads only *)

Section CheckReads.
Context `{names : NameEnum} {S : Type} `{src : source S}.

Lemma Check_adds_reads (l : Limiter) (ctx : context) (bucket : BucketWithCost) :
  adds (S := S) reads (Check l ctx bucket).
Proof. unfold Check, Get. adds_tac. Qed.

End CheckReads.

(** A [Get] of the Redis source leaves every key as it was. *)
Lemma RedisSource_Get_kv (ctx : context) (k : string) (r : RedisSource) :
  kv (client (snd (RedisSource_Get ctx k r))) = kv (client r).
Proof.
  unfold RedisSource_Get, client_Get, reply.
  destruct (faults (client r)) as [|[e|] rest]; simpl;
    repeat (case_match; simpl; try done).
Qed.

Lemma Check_kv `{names : NameEnum} (l : Limiter) (ctx : context)
    (bucket : BucketWithCost) (w : world RedisSource) :
  kv (client (w_source (snd (Check l ctx bucket w)))) = kv (client (w_source w)).
Proof.
  unfold Check.
  repeat (case_match; simpl; try done);
    unfold bind, Get, invoke; simpl;
    pose proof (RedisSource_Get_kv (WithoutCancel ctx) (key bucket) (w_source w))
      as Hkv;
    destruct (RedisSource_Get _ _ _) as [[tat err] s'];
    simpl in *; repeat (case_match; simpl; try done).
Qed.

(** With a clock that stands still and a Redis that serves every round trip,
    what [Check] returns depends on the keys only. *)
Lemma Check_result `{names : NameEnum} (l : Limiter) (ctx : context)
    (bucket : BucketWithCost) (w w' : world RedisSource) :
  ticks w = [] → faults (client (w_source w)) = [] →
  ticks w' = [] → faults (client (w_source w')) = [] →
  w_time w' = w_time w →
  kv (client (w_source w')) = kv (client (w_source w)) →
  fst (Check l ctx bucket w') = fst (Check l ctx bucket w).
Proof.
  destruct w as [[[m fs] lat] cs t tk], w' as [[[m' fs'] lat'] cs' t' tk'].
  simpl. intros -> -> -> -> -> ->.
  unfold Check.
  destruct (cost bucket <? 0); [done|].
  destruct (getLimit l (name bucket) (key bucket)) as [rl err].
  destruct (bool_decide (err ≠ None)); [by destruct (errors_Is _ _)|].
  destruct (Burst rl <? cost bucket); [done|].
  unfold bind, Get, invoke, source_Get. simpl.
  unfold RedisSource_Get, client_Get, reply. simpl.
  destruct (m !! key bucket); simpl; done.
Qed.

Lemma Check_frozen `{names : NameEnum} (l : Limiter) (ctx : context)
    (bucket : BucketWithCost) (w : world RedisSource) :
  ticks w = [] → faults (client (w_source w)) = [] →
  ticks (snd (Check l ctx bucket w)) = []
  ∧ faults (client (w_source (snd (Check l ctx bucket w)))) = []
  ∧ w_time (snd (Check l ctx bucket w)) = w_time w.
Proof.
  destruct w as [[[m fs] lat] cs t tk]. simpl. intros -> ->.
  unfold Check.
  repeat (case_match; simpl; try (repeat split; done || lia)).
  all: unfold bind, Get, invoke, source_Get; simpl;
    unfold RedisSource_Get, client_Get, reply; simpl;
    destruct (m !! key bucket); simpl; repeat split; done || lia.
Qed.

(** C6. Two [Check]s in a row, against the Redis source: neither makes a call
    that writes, every key holds after each what it held before, and when the
    clock stands still and the source answers, the second returns what the
    first returned. *)
Theorem Check_is_pure `{names : NameEnum} (l : Limiter) (ctx : context)
    (bucket : BucketWithCost) (w : world RedisSource) :
  let r1 := Check l ctx bucket w in
  let r2 := Check l ctx bucket (snd r1) in
  Forall reads (newCalls w (snd r1))
  ∧ Forall reads (newCalls w (snd r2))
  ∧ kv (client (w_source (snd r1))) = kv (client (w_source w))
  ∧ kv (client (w_source (snd r2))) = kv (client (w_source w))
  ∧ (ticks w = [] → faults (client (w_source w)) = [] → fst r2 = fst r1).
Proof.
  intros r1 r2. repeat split.
  - apply adds_newCalls, Check_adds_reads.
  - pose proof (adds_newCalls reads
      (bind (Check l ctx bucket) (fun _ => Check l ctx bucket)) w) as H.
    unfold bind in H at 2. fold r1 in H. destruct r1 as [a w1].
    apply H. apply adds_bind; [|intros ?]; apply Check_adds_reads.
  - apply Check_kv.
  - unfold r2. rewrite Check_kv. apply Check_kv.
  - intros Ht Hf.
    destruct (Check_frozen l ctx bucket w Ht Hf) as (Ht' & Hf' & Hw).
    apply Check_result; try done. apply Check_kv.
Qed.

(** Two checks of a bucket that holds a TAT three seconds ahead, at a clock
    that stands still: both return the same decision, and the store still
    holds that TAT. *)
Example Check_twice :
  let w := exampleWorld {[ key (bucketA 8) := 3 * second ]} [] 0 [] in
  let r1 := Check (names := exampleNames) exampleLimiter Background (bucketA 8) w in
  let r2 := Check (names := exampleNames) exampleLimiter Background (bucketA 8)
              (snd r1) in
  fst r1 = (Some {| Allowed := false; Remaining := 7; RetryIn := 1 * second;
                    ResetIn := 3 * second; newTAT := 3 * second |}, None)
  ∧ fst r2 = fst r1
  ∧ map call_op (calls (snd r2))
    = [OpGet (key (bucketA 8)); OpGet (key (bucketA 8))]
  ∧ kv (client (w_source (snd r2))) = {[ key (bucketA 8) := 3 * second ]}.
Proof. vm_compute. repeat split. Qed.

(** ** Batches *)

Section BatchVocabulary.
Context `{names : NameEnum}.

Lemma lastAllowed_nil (k : string) : lastAllowed k [] = None.
Proof. done. Qed.

Lemma lastAllowed_snoc (k : string) (evs : list evaluation) (ev : evaluation) :
  lastAllowed k (evs ++ [ev]) =
    if evAllowed ev && bool_decide (key (ev_bucket ev) = k)
    then Some (newTAT (ev_decision ev)) else lastAllowed k evs.
Proof.
  unfold lastAllowed. rewrite filter_app, last_app.
  destruct (evAllowed ev) eqn:Ha; simpl.
  - case_bool_decide as Hk.
    + rewrite filter_cons_True by done. done.
    + rewrite filter_cons_False by (intros [_ ?]; done). done.
  - rewrite filter_cons_False by (intros [? _]; congruence). done.
Qed.

Lemma lastAllowed_Some (k : string) (evs : list evaluation) (t : Time) :
  lastAllowed k evs = Some t →
  ∃ ev, ev ∈ evs ∧ evAllowed ev = true ∧ key (ev_bucket ev) = k
        ∧ newTAT (ev_decision ev) = t.
Proof.
  unfold lastAllowed. intros H.
  destruct (last _) as [ev|] eqn:Hl; [|done].
  injection H as <-. apply last_Some_elem_of in Hl.
  apply list_elem_of_filter in Hl as [[? ?] ?]. by exists ev.
Qed.

Lemma lastAllowed_None (k : string) (evs : list evaluation) :
  lastAllowed k evs = None ↔
  ∀ ev, ev ∈ evs → evAllowed ev = true → key (ev_bucket ev) ≠ k.
Proof.
  unfold lastAllowed. rewrite fmap_None, last_None. split.
  - intros H ev Hin Ha Hk.
    assert (ev ∈ filter (fun ev => evAllowed ev = true ∧ key (ev_bucket ev) = k) evs)
      as Hf by (by apply list_elem_of_filter).
    rewrite H in Hf. by apply not_elem_of_nil in Hf.
  - intros H. destruct (filter _ evs) as [|ev rest] eqn:Hf; [done|].
    assert (ev ∈ filter (fun ev => evAllowed ev = true ∧ key (ev_bucket ev) = k) evs)
      as Hin by (rewrite Hf; left).
    apply list_elem_of_filter in Hin as [[? ?] ?]. by destruct (H ev).
Qed.

End BatchVocabulary.

Section Batches.
Context `{names : NameEnum} {S : Type} `{src : source S}.

Lemma bool_decide_ext_if {A} (P Q : Prop) {dP : base.Decision P}
    {dQ : base.Decision Q} (a b : A) :
  (P ↔ Q) →
  (if bool_decide P then a else b) = (if bool_decide Q then a else b).
Proof. intros HPQ. by rewrite (bool_decide_ext P Q HPQ). Qed.

Lemma collectKeys_spec (buckets : list BucketWithCost) (bucketKeys : list string) :
  collectKeys buckets bucketKeys =
    if bool_decide (Forall (fun b => 0 < cost b) buckets)
    then inr (bucketKeys ++ map key buckets) else inl ErrInvalidCost.
Proof.
  revert bucketKeys. induction buckets as [|b rest IH]; intros bucketKeys; simpl.
  - by rewrite app_nil_r.
  - destruct (Z.leb_spec (cost b) 0) as [Hc|Hc].
    + rewrite bool_decide_eq_false_2; [done|].
      intros H. apply Forall_cons in H as [? _]. lia.
    + rewrite IH, <-app_assoc. simpl.
      apply bool_decide_ext_if. rewrite Forall_cons. tauto.
Qed.

Lemma update_tracked (combine : bool → bool → bool) (st : batch)
    (bucket : BucketWithCost) (rl : limit) (tat : Time) (d : Decision) :
  tracked st → tracked (update combine st bucket rl tat d).
Proof.
  intros H k. simpl. rewrite lastAllowed_snoc. unfold evAllowed. simpl.
  destruct (Allowed d); simpl; [|apply H].
  case_bool_decide as Hk.
  - subst k. by rewrite lookup_insert_eq.
  - rewrite lookup_insert_ne by done. apply H.
Qed.

Lemma update_evaluated (combine : bool → bool → bool) (st : batch)
    (bucket : BucketWithCost) (rl : limit) (tat : Time) (d : Decision) :
  evaluated (update combine st bucket rl tat d) =
    evaluated st ++ [{| ev_bucket := bucket; ev_limit := rl; ev_tat := tat;
                        ev_decision := d |}].
Proof. done. Qed.

Lemma spendEvaluation_mono (l : Limiter) (tats : gmap string Time)
    (nowTAT t1 t2 t1' t2' : Time) (ev : evaluation) :
  t1' ≤ t1 → t2 ≤ t2' →
  spendEvaluation l tats nowTAT t1 t2 ev → spendEvaluation l tats nowTAT t1' t2' ev.
Proof.
  intros ? ? (Hl & Ht & now & Hn & Hd). repeat split; try done.
  exists now. split; [lia|done].
Qed.

Lemma refundEvaluation_mono (l : Limiter) (tats : gmap string Time)
    (t1 t2 t1' t2' : Time) (ev : evaluation) :
  t1' ≤ t1 → t2 ≤ t2' →
  refundEvaluation l tats t1 t2 ev → refundEvaluation l tats t1' t2' ev.
Proof.
  intros ? ? (Hl & Ht & Hz & now & Hn & Hd). repeat split; try done.
  exists now. split; [lia|done].
Qed.

(** The second loop of [BatchSpend] makes no call to the source, and
    evaluates the buckets whose limit resolves, in order, each once. *)
Lemma spendLoop_spec (l : Limiter) (tats : gmap string Time) (nowTAT : Time)
    (buckets : list BucketWithCost) (st : batch) (w : world S) :
  tracked st → allowed st = forallb evAllowed (evaluated st) →
  calls (snd (spendLoop l tats nowTAT buckets st w)) = calls w
  ∧ w_source (snd (spendLoop l tats nowTAT buckets st w)) = w_source w
  ∧ w_time w ≤ w_time (snd (spendLoop l tats nowTAT buckets st w))
  ∧ match fst (spendLoop l tats nowTAT buckets st w) with
    | inl err => True
    | inr st' =>
        tracked st' ∧ allowed st' = forallb evAllowed (evaluated st')
        ∧ ∃ evs, evaluated st' = evaluated st ++ evs
            ∧ map ev_bucket evs = filter (enabled l) buckets
            ∧ Forall (spendEvaluation l tats nowTAT (w_time w)
                        (w_time (snd (spendLoop l tats nowTAT buckets st w)))) evs
    end.
Proof.
  revert st w. induction buckets as [|b rest IH]; intros st w Ht Ha.
  - simpl. repeat split; try done. exists []. by rewrite app_nil_r.
  - simpl.
    destruct (getLimit l (name b) (key b)) as [rl [e|]] eqn:Hl.
    + rewrite bool_decide_eq_true_2 by done.
      destruct (errors_Is (Some e) (Some errLimitDisabled)); [|done].
      rewrite filter_cons_False by (unfold enabled; by rewrite Hl).
      by apply IH.
    + rewrite bool_decide_eq_false_2 by (intros ?; done).
      rewrite filter_cons_True by (unfold enabled; by rewrite Hl).
      unfold bind at 1. unfold maybeSpend, bind, Now, pure. simpl.
      set (t1 := w_time w + Z.of_N (hd 0%N (ticks w))).
      set (tat := if negb (bool_decide (is_Some (tats !! key b)))
                     || IsZero (default zeroTime (tats !! key b))
                  then nowTAT else default zeroTime (tats !! key b)).
      set (d := spendKernel rl tat (cost b) t1).
      set (w1 := World (w_source w) (calls w) t1 (tl (ticks w))).
      destruct (IH (update andb st b rl tat d) w1) as (Hc & Hs & Hw & Hr).
      { by apply update_tracked. }
      { simpl. rewrite forallb_app, <-Ha. simpl. unfold evAllowed. simpl.
        by rewrite andb_true_r. }
      repeat split; try done.
      { simpl in Hw. unfold t1 in Hw. lia. }
      destruct (fst (spendLoop l tats nowTAT rest _ w1)) as [err|st']; [done|].
      destruct Hr as (Ht' & Ha' & evs & He & Hm & Hf).
      repeat split; try done.
      exists ({| ev_bucket := b; ev_limit := rl; ev_tat := tat;
                 ev_decision := d |} :: evs).
      rewrite He, update_evaluated, <-app_assoc. simpl.
      repeat split; [by rewrite Hm|].
      constructor.
      * repeat split; simpl; [done| |].
        -- unfold tat, bucketTAT. by destruct (tats !! key b) as [t|].
        -- exists t1. split; [|done]. simpl in Hw. unfold t1 in *. lia.
      * eapply Forall_impl; [exact Hf|]. intros ev.
        apply spendEvaluation_mono; simpl; unfold t1; lia.
Qed.

(** The second loop of [BatchRefund], likewise. *)
Lemma refundLoop_spec (l : Limiter) (tats : gmap string Time)
    (buckets : list BucketWithCost) (st : batch) (w : world S) :
  tracked st → allowed st = existsb evAllowed (evaluated st) →
  calls (snd (refundLoop l tats buckets st w)) = calls w
  ∧ w_source (snd (refundLoop l tats buckets st w)) = w_source w
  ∧ w_time w ≤ w_time (snd (refundLoop l tats buckets st w))
  ∧ match fst (refundLoop l tats buckets st w) with
    | inl err => True
    | inr st' =>
        tracked st' ∧ allowed st' = existsb evAllowed (evaluated st')
        ∧ ∃ evs, evaluated st' = evaluated st ++ evs
            ∧ map ev_bucket evs = filter (refundable l tats) buckets
            ∧ Forall (refundEvaluation l tats (w_time w)
                        (w_time (snd (refundLoop l tats buckets st w)))) evs
    end.
Proof.
  revert st w. induction buckets as [|b rest IH]; intros st w Ht Ha.
  - simpl. repeat split; try done. exists []. by rewrite app_nil_r.
  - simpl.
    destruct (getLimit l (name b) (key b)) as [rl [e|]] eqn:Hl.
    + rewrite bool_decide_eq_true_2 by done.
      destruct (errors_Is (Some e) (Some errLimitDisabled)); [|done].
      rewrite filter_cons_False
        by (unfold refundable, enabled; rewrite Hl; by intros [? _]).
      by apply IH.
    + rewrite bool_decide_eq_false_2 by (intros ?; done).
      destruct (tats !! key b) as [tat|] eqn:Hk; simpl.
      2:{ rewrite filter_cons_False
            by (unfold refundable; rewrite Hk; by intros [_ ?]).
          by apply IH. }
      destruct (IsZero tat) eqn:Hz; simpl.
      { rewrite filter_cons_False
          by (unfold refundable; rewrite Hk; simpl; rewrite Hz; by intros [_ ?]).
        by apply IH. }
      rewrite filter_cons_True
        by (unfold refundable, enabled; rewrite Hl, Hk; simpl; by rewrite Hz).
      unfold bind at 1. unfold maybeRefund, bind, Now, pure. simpl.
      set (t1 := w_time w + Z.of_N (hd 0%N (ticks w))).
      set (d := refundKernel rl tat (cost b) t1).
      set (w1 := World (w_source w) (calls w) t1 (tl (ticks w))).
      destruct (IH (update orb st b rl tat d) w1) as (Hc & Hs & Hw & Hr).
      { by apply update_tracked. }
      { simpl. rewrite existsb_app, <-Ha. simpl. unfold evAllowed. simpl.
        by rewrite orb_false_r. }
      repeat split; try done.
      { simpl in Hw. unfold t1 in Hw. lia. }
      destruct (fst (refundLoop l tats rest _ w1)) as [err|st']; [done|].
      destruct Hr as (Ht' & Ha' & evs & He & Hm & Hf).
      repeat split; try done.
      exists ({| ev_bucket := b; ev_limit := rl; ev_tat := tat;
                 ev_decision := d |} :: evs).
      rewrite He, update_evaluated, <-app_assoc. simpl.
      repeat split; [by rewrite Hm|].
      constructor.
      * repeat split; simpl; [done..|].
        exists t1. split; [|done]. simpl in Hw. unfold t1 in *. lia.
      * eapply Forall_impl; [exact Hf|]. intros ev.
        apply refundEvaluation_mono; simpl; unfold t1; lia.
Qed.

(** A loop over buckets whose limits are all disabled does nothing. *)
Lemma spendLoop_disabled (l : Limiter) (tats : gmap string Time) (nowTAT : Time)
    (buckets : list BucketWithCost) (st : batch) (w : world S) :
  Forall (disabled l) buckets →
  spendLoop l tats nowTAT buckets st w = (inr st, w).
Proof.
  induction 1 as [|b rest Hb _ IH]; [done|].
  simpl. unfold disabled in Hb.
  destruct (getLimit l (name b) (key b)) as [rl err]. simpl in Hb. subst err.
  by rewrite bool_decide_eq_true_2.
Qed.

Lemma batch_init_tracked (allowed0 : bool) : tracked (batch_init allowed0).
Proof. intros k. simpl. by rewrite lookup_empty. Qed.

(** [BatchSpend], when it reaches the end of its second loop: the batch is
    not empty and its costs are positive; one batch-get was made, for the keys
    of all the buckets, and it is the only call so far; every bucket whose
    limit resolves was evaluated, in order, on the TAT of its key. *)
Lemma batchSpendEvaluate_inr (l : Limiter) (ctx : context)
    (buckets : list BucketWithCost) (w : world S) (st : batch) (w1 : world S) :
  batchSpendEvaluate l ctx buckets w = (inr st, w1) →
  buckets ≠ [] ∧ Forall (fun b => 0 < cost b) buckets
  ∧ tracked st ∧ allowed st = forallb evAllowed (evaluated st)
  ∧ map ev_bucket (evaluated st) = filter (enabled l) buckets
  ∧ calls w1 = calls w ++ [Call (WithoutCancel ctx) (OpBatchGet (map key buckets))]
  ∧ ∃ tats nowTAT,
      source_BatchGet (WithoutCancel ctx) (map key buckets) (w_source w)
        = ((tats, None), w_source w1)
      ∧ w_time w ≤ nowTAT
      ∧ Forall (spendEvaluation l tats nowTAT nowTAT (w_time w1)) (evaluated st).
Proof.
  intros H. unfold batchSpendEvaluate in H.
  case_bool_decide as Hlen; [discriminate H|].
  rewrite collectKeys_spec in H. case_bool_decide as Hcost; [|discriminate H].
  simpl in H. unfold bind at 1 in H. unfold BatchGet, invoke in H.
  destruct (source_BatchGet _ _ (w_source w)) as [[tats [e|]] s1] eqn:Hbg.
  { rewrite bool_decide_eq_true_2 in H by done. discriminate H. }
  rewrite bool_decide_eq_false_2 in H by (intros ?; done).
  unfold bind at 1 in H. unfold Now at 1 in H. simpl in H.
  set (t0 := w_time w + Z.of_N (hd 0%N (ticks w))) in H.
  set (w0 := World s1 _ t0 _) in H.
  destruct (spendLoop_spec l tats t0 buckets (batch_init true) w0)
    as (Hc & Hs & Hw & Hr); [apply batch_init_tracked|done|].
  unfold bind in H.
  destruct (spendLoop l tats t0 buckets (batch_init true) w0) as [[err|st'] w'];
    [discriminate H|].
  injection H as -> ->. simpl in *.
  destruct Hr as (Ht & Ha & evs & He & Hm & Hf). subst evs.
  repeat split; try done.
  - by intros ->.
  - exists tats, t0. rewrite Hs. split; [done|split; [unfold t0; lia|done]].
Qed.

(** [BatchRefund], when it reaches the end of its second loop. *)
Lemma batchRefundEvaluate_inr (l : Limiter) (ctx : context)
    (buckets : list BucketWithCost) (w : world S) (st : batch) (w1 : world S) :
  batchRefundEvaluate l ctx buckets w = (inr st, w1) →
  buckets ≠ [] ∧ Forall (fun b => 0 < cost b) buckets
  ∧ tracked st ∧ allowed st = existsb evAllowed (evaluated st)
  ∧ calls w1 = calls w ++ [Call (WithoutCancel ctx) (OpBatchGet (map key buckets))]
  ∧ ∃ tats,
      source_BatchGet (WithoutCancel ctx) (map key buckets) (w_source w)
        = ((tats, None), w_source w1)
      ∧ map ev_bucket (evaluated st) = filter (refundable l tats) buckets
      ∧ Forall (refundEvaluation l tats (w_time w) (w_time w1)) (evaluated st).
Proof.
  intros H. unfold batchRefundEvaluate in H.
  case_bool_decide as Hlen; [discriminate H|].
  rewrite collectKeys_spec in H. case_bool_decide as Hcost; [|discriminate H].
  simpl in H. unfold bind at 1 in H. unfold BatchGet, invoke in H.
  destruct (source_BatchGet _ _ (w_source w)) as [[tats [e|]] s1] eqn:Hbg.
  { rewrite bool_decide_eq_true_2 in H by done. discriminate H. }
  rewrite bool_decide_eq_false_2 in H by (intros ?; done).
  set (w0 := World s1 _ _ _) in H.
  destruct (refundLoop_spec l tats buckets (batch_init false) w0)
    as (Hc & Hs & Hw & Hr); [apply batch_init_tracked|done|].
  unfold bind in H.
  destruct (refundLoop l tats buckets (batch_init false) w0) as [[err|st'] w'];
    [discriminate H|].
  injection H as -> ->. simpl in *.
  destruct Hr as (Ht & Ha & evs & He & Hm & Hf). subst evs.
  repeat split; try done.
  - by intros ->.
  - exists tats. rewrite Hs. done.
Qed.

Lemma batchSpendEvaluate_adds_reads (l : Limiter) (ctx : context)
    (buckets : list BucketWithCost) :
  adds (S := S) reads (batchSpendEvaluate l ctx buckets).
Proof.
  unfold batchSpendEvaluate, BatchGet. adds_tac; apply spendLoop_adds.
Qed.

Lemma batchRefundEvaluate_adds_reads (l : Limiter) (ctx : context)
    (buckets : list BucketWithCost) :
  adds (S := S) reads (batchRefundEvaluate l ctx buckets).
Proof.
  unfold batchRefundEvaluate, BatchGet. adds_tac; apply refundLoop_adds.
Qed.

Lemma writes_app (w w' : world S) (new : list call) :
  calls w' = calls w ++ new →
  writes w w' = filter (fun c => isWrite c = true) new.
Proof. intros E. unfold writes, newCalls. by rewrite E, drop_app_length. Qed.

Lemma writes_reads {A} (m : M S A) (w : world S) :
  adds reads m → writes w (snd (m w)) = [].
Proof.
  intros H. destruct (H w) as (new & E & Hn).
  rewrite (writes_app _ _ _ E). clear E.
  induction Hn as [|c new Hc _ IH]; [done|].
  rewrite filter_cons_False; [done|]. unfold reads in Hc. congruence.
Qed.



(** Some TAT is to be written exactly when some evaluation was allowed. *)
Lemma tracked_non_empty (st : batch) :
  tracked st →
  newTATs st ≠ ∅ ↔ Exists (fun ev => evAllowed ev = true) (evaluated st).
Proof.
  intros Ht. rewrite Exists_exists. split.
  - intros Hne. apply map_choose in Hne as (k & t & Hk).
    rewrite Ht in Hk. apply lastAllowed_Some in Hk as (ev & ? & ? & _).
    by exists ev.
  - intros (ev & Hin & Ha) Hempty.
    pose proof (Ht (key (ev_bucket ev))) as Hk.
    rewrite Hempty, lookup_empty in Hk. symmetry in Hk.
    rewrite lastAllowed_None in Hk. by apply (Hk ev).
Qed.

Lemma tracked_lookup (st : batch) (k : string) :
  tracked st →
  is_Some (newTATs st !! k) ↔
  ∃ ev, ev ∈ evaluated st ∧ evAllowed ev = true ∧ key (ev_bucket ev) = k.
Proof.
  intros Ht. rewrite Ht. split.
  - intros [t Hk]. apply lastAllowed_Some in Hk as (ev & ? & ? & ? & _).
    by exists ev.
  - intros (ev & Hin & Ha & Hk).
    destruct (lastAllowed k (evaluated st)) eqn:Hl; [done|].
    rewrite lastAllowed_None in Hl. by destruct (Hl ev).
Qed.

Lemma spend_condition (a : bool) (m : gmap string Time) :
  bool_decide (0 < size m)%nat && a = bool_decide (a = true ∧ m ≠ ∅).
Proof.
  destruct a.
  - rewrite andb_true_r. apply bool_decide_ext.
    rewrite <-map_size_non_empty_iff. split; [intros ?; split; [done|lia]|].
    intros [_ ?]. lia.
  - rewrite andb_false_r. symmetry. apply bool_decide_eq_false_2.
    by intros [? _].
Qed.

(** What [BatchSpend] does after its second loop. *)
Lemma batchSpendPersist_spec (ctx : context) (st : batch) (w : world S) :
  let go := bool_decide (allowed st = true ∧ newTATs st ≠ ∅) in
  calls (snd (batchSpendPersist ctx st w)) =
    calls w ++ (if go then [Call ctx (OpBatchSet (newTATs st))] else [])
  ∧ fst (batchSpendPersist ctx st w) =
      match (if go then fst (source_BatchSet ctx (newTATs st) (w_source w))
             else None) with
      | Some e => (None, Some e)
      | None => (Some (consolidated st), None)
      end.
Proof.
  unfold batchSpendPersist, deferred, bind, Now, BatchSet, invoke, pure. simpl.
  rewrite spend_condition.
  case_bool_decide as Hgo; simpl.
  - by destruct (source_BatchSet ctx (newTATs st) (w_source w)) as [[e|] s'].
  - by rewrite app_nil_r.
Qed.

(** What [BatchRefund] does after its second loop. *)
Lemma batchRefundPersist_spec (ctx : context) (st : batch) (w : world S) :
  let go := bool_decide (newTATs st ≠ ∅) in
  calls (snd (batchRefundPersist ctx st w)) =
    calls w ++ (if go then [Call ctx (OpBatchSet (newTATs st))] else [])
  ∧ fst (batchRefundPersist ctx st w) =
      match (if go then fst (source_BatchSet ctx (newTATs st) (w_source w))
             else None) with
      | Some e => (None, Some e)
      | None => (Some (consolidated st), None)
      end.
Proof.
  unfold batchRefundPersist, bind, BatchSet, invoke, pure. simpl.
  assert (bool_decide (0 < size (newTATs st))%nat
          = bool_decide (newTATs st ≠ ∅)) as ->.
  { apply bool_decide_ext. rewrite <-map_size_non_empty_iff. lia. }
  case_bool_decide as Hgo; simpl.
  - by destruct (source_BatchSet ctx (newTATs st) (w_source w)) as [[e|] s'].
  - by rewrite app_nil_r.
Qed.

Lemma BatchSpend_early (l : Limiter) (ctx : context)
    (buckets : list BucketWithCost) (w : world S) (early : ret) (w1 : world S) :
  batchSpendEvaluate l ctx buckets w = (inl early, w1) →
  fst (BatchSpend l ctx buckets w) = early
  ∧ writes w (snd (BatchSpend l ctx buckets w)) = [].
Proof.
  intros He.
  pose proof (writes_reads (batchSpendEvaluate l ctx buckets) w
                (batchSpendEvaluate_adds_reads l ctx buckets)) as Hw.
  unfold BatchSpend, bind. rewrite He in *. done.
Qed.

Lemma BatchSpend_after_loop (l : Limiter) (ctx : context)
    (buckets : list BucketWithCost) (w : world S) (st : batch) (w1 : world S) :
  batchSpendEvaluate l ctx buckets w = (inr st, w1) →
  let go := bool_decide (allowed st = true ∧ newTATs st ≠ ∅) in
  writes w (snd (BatchSpend l ctx buckets w))
    = (if go then [Call (WithoutCancel ctx) (OpBatchSet (newTATs st))] else [])
  ∧ fst (BatchSpend l ctx buckets w)
    = match (if go
             then fst (source_BatchSet (WithoutCancel ctx) (newTATs st) (w_source w1))
             else None) with
      | Some e => (None, Some e)
      | None => (Some (consolidated st), None)
      end.
Proof.
  intros He go.
  destruct (batchSpendEvaluate_inr _ _ _ _ _ _ He)
    as (_ & _ & _ & _ & _ & Hc & _).
  destruct (batchSpendPersist_spec (WithoutCancel ctx) st w1) as [Hp Hr].
  unfold BatchSpend, bind. rewrite He. split; [|done].
  rewrite Hc, <-app_assoc in Hp. rewrite (writes_app _ _ _ Hp). simpl.
  rewrite filter_cons_False by done. fold go. by destruct go.
Qed.

Lemma BatchRefund_early (l : Limiter) (ctx : context)
    (buckets : list BucketWithCost) (w : world S) (early : ret) (w1 : world S) :
  batchRefundEvaluate l ctx buckets w = (inl early, w1) →
  fst (BatchRefund l ctx buckets w) = early
  ∧ writes w (snd (BatchRefund l ctx buckets w)) = [].
Proof.
  intros He.
  pose proof (writes_reads (batchRefundEvaluate l ctx buckets) w
                (batchRefundEvaluate_adds_reads l ctx buckets)) as Hw.
  unfold BatchRefund, bind. rewrite He in *. done.
Qed.

Lemma BatchRefund_after_loop (l : Limiter) (ctx : context)
    (buckets : list BucketWithCost) (w : world S) (st : batch) (w1 : world S) :
  batchRefundEvaluate l ctx buckets w = (inr st, w1) →
  let go := bool_decide (newTATs st ≠ ∅) in
  writes w (snd (BatchRefund l ctx buckets w))
    = (if go then [Call (WithoutCancel ctx) (OpBatchSet (newTATs st))] else [])
  ∧ fst (BatchRefund l ctx buckets w)
    = match (if go
             then fst (source_BatchSet (WithoutCancel ctx) (newTATs st) (w_source w1))
             else None) with
      | Some e => (None, Some e)
      | None => (Some (consolidated st), None)
      end.
Proof.
  intros He go.
  destruct (batchRefundEvaluate_inr _ _ _ _ _ _ He) as (_ & _ & _ & _ & Hc & _).
  destruct (batchRefundPersist_spec (WithoutCancel ctx) st w1) as [Hp Hr].
  unfold BatchRefund, bind. rewrite He. split; [|done].
  rewrite Hc, <-app_assoc in Hp. rewrite (writes_app _ _ _ Hp). simpl.
  rewrite filter_cons_False by done. fold go. by destruct go.
Qed.

(** A [BatchSpend] whose buckets all resolve to a disabled limit ends its
    second loop as it started it. *)
Lemma batchSpendEvaluate_disabled (l : Limiter) (ctx : context)
    (buckets : list BucketWithCost) (w : world S) :
  Forall (disabled l) buckets →
  buckets ≠ [] → Forall (fun b => 0 < cost b) buckets →
  snd (fst (source_BatchGet (WithoutCancel ctx) (map key buckets)
              (w_source w))) = None →
  fst (batchSpendEvaluate l ctx buckets w) = inr (batch_init true).
Proof.
  intros Hd Hne Hc Hg. unfold batchSpendEvaluate.
  rewrite bool_decide_eq_false_2 by (by destruct buckets).
  rewrite collectKeys_spec, bool_decide_eq_true_2 by done. simpl.
  unfold bind at 1. unfold BatchGet, invoke.
  destruct (source_BatchGet _ _ (w_source w)) as [[tats err] s1].
  simpl in Hg. subst err. simpl.
  unfold bind at 1. unfold Now at 1. simpl.
  unfold bind. by rewrite spendLoop_disabled.
Qed.



(** C9. When every bucket of a [BatchSpend] resolves to a disabled limit, no
    call writes to the source; and provided the batch is not empty, its costs
    are positive and the batch-get succeeds, the decision returned is allowed,
    with [math.MaxInt64] remaining, nothing to wait and the zero time as TAT,
    which is not the decision the single-bucket operations return for a
    disabled limit. *)
Theorem BatchSpend_all_disabled (l : Limiter) (ctx : context)
    (buckets : list BucketWithCost) (w : world S) :
  Forall (disabled l) buckets →
  writes w (snd (BatchSpend l ctx buckets w)) = []
  ∧ (buckets ≠ [] → Forall (fun b => 0 < cost b) buckets →
     snd (fst (source_BatchGet (WithoutCancel ctx) (map key buckets)
                 (w_source w))) = None →
     fst (BatchSpend l ctx buckets w) = (Some emptyBatchDecision, None))
  ∧ emptyBatchDecision ≠ disabledLimitDecision.
Proof.
  intros Hd. split; [|split; [|done]].
  - destruct (batchSpendEvaluate l ctx buckets w) as [[early|st] w1] eqn:He.
    { by apply (BatchSpend_early _ _ _ _ _ _ He). }
    destruct (BatchSpend_after_loop _ _ _ _ _ _ He) as [-> _].
    rewrite bool_decide_eq_false_2; [done|]. intros [_ Hn].
    destruct (batchSpendEvaluate_inr _ _ _ _ _ _ He)
      as (_ & _ & Ht & _ & Hm & _).
    apply (tracked_non_empty _ Ht), Exists_exists in Hn as (ev & Hin & _).
    assert (ev_bucket ev ∈ filter (enabled l) buckets) as Hb
      by (rewrite <-Hm; by apply list_elem_of_fmap_2).
    apply list_elem_of_filter in Hb as [Hen Hb].
    rewrite Forall_forall in Hd. specialize (Hd _ Hb).
    unfold enabled, disabled in *. congruence.
  - intros Hne Hc Hg.
    pose proof (batchSpendEvaluate_disabled l ctx buckets w Hd Hne Hc Hg) as He.
    destruct (batchSpendEvaluate l ctx buckets w) as [r w1] eqn:He'.
    simpl in He. subst r.
    destruct (BatchSpend_after_loop _ _ _ _ _ _ He') as [_ ->].
    by rewrite bool_decide_eq_false_2 by (by intros [_ ?]).
Qed.

(** C10. In a [BatchSpend] that reaches the end of its second loop, one
    batch-get was made, for the keys of all buckets; every bucket whose limit
    resolves was evaluated, in order, on the TAT that the result of that
    batch-get gives for its key, so that two buckets with the same key were
    evaluated on the same TAT; the new TAT held for a key is that of the last
    allowed evaluation of the key; and the calls that write are at most one
    batch-set of the new TATs held. *)
Theorem BatchSpend_repeated_key (l : Limiter) (ctx : context)
    (buckets : list BucketWithCost) (w : world S) (st : batch) (w1 : world S) :
  batchSpendEvaluate l ctx buckets w = (inr st, w1) →
  ∃ tats nowTAT,
    calls w1 = calls w ++ [Call (WithoutCancel ctx) (OpBatchGet (map key buckets))]
    ∧ fst (fst (source_BatchGet (WithoutCancel ctx) (map key buckets) (w_source w)))
      = tats
    ∧ map ev_bucket (evaluated st) = filter (enabled l) buckets
    ∧ Forall (spendEvaluation l tats nowTAT nowTAT (w_time w1)) (evaluated st)
    ∧ (∀ ev ev', ev ∈ evaluated st → ev' ∈ evaluated st →
                 key (ev_bucket ev) = key (ev_bucket ev') →
                 ev_tat ev = ev_tat ev')
    ∧ (∀ k, newTATs st !! k = lastAllowed k (evaluated st))
    ∧ (writes w (snd (BatchSpend l ctx buckets w)) = []
       ∨ writes w (snd (BatchSpend l ctx buckets w))
         = [Call (WithoutCancel ctx) (OpBatchSet (newTATs st))]).
Proof.
  intros He.
  destruct (batchSpendEvaluate_inr _ _ _ _ _ _ He)
    as (_ & _ & Ht & _ & Hm & Hc & tats & nowTAT & Hg & _ & Hf).
  exists tats, nowTAT. rewrite Hg. repeat split; try done.
  - intros ev ev' Hin Hin' Hk. rewrite Forall_forall in Hf.
    destruct (Hf _ Hin) as (_ & -> & _), (Hf _ Hin') as (_ & -> & _).
    by rewrite Hk.
  - destruct (BatchSpend_after_loop _ _ _ _ _ _ He) as [-> _].
    case_bool_decide; auto.
Qed.

End Batches.

Lemma BatchSpend_all_disabled_witness :
  let w := exampleWorld ∅ [] 0 [] in
  let r := BatchSpend (names := exampleNames) exampleLimiter Background
             [bucketOff 1; bucketOff 2] w in
  fst r = (Some {| Allowed := true; Remaining := 9223372036854775807;
                   RetryIn := 0; ResetIn := 0; newTAT := zeroTime |}, None)
  ∧ writes w (snd r) = [].
Proof.
  intros w r.
  destruct (BatchSpend_all_disabled (names := exampleNames) exampleLimiter
              Background [bucketOff 1; bucketOff 2] w) as (Hw & Hr & _).
  { repeat constructor. }
  split; [|exact Hw].
  apply Hr; [done|repeat constructor|reflexivity].
Defined.

Lemma BatchSpend_repeated_key_witness :
  let w := exampleWorld ∅ [] 0 [] in
  let buckets := [bucketA 5; bucketA 5] in
  ∃ st w1,
    batchSpendEvaluate (names := exampleNames) exampleLimiter Background buckets w
      = (inr st, w1)
    ∧ map ev_tat (evaluated st) = [0; 0]
    ∧ newTATs st !! key (bucketA 5) = lastAllowed (key (bucketA 5)) (evaluated st)
    ∧ newTATs st = {[ key (bucketA 5) := 5 * second ]}.
Proof.
  intros w buckets.
  assert (∃ st w1,
            batchSpendEvaluate (names := exampleNames) exampleLimiter Background
              buckets w = (inr st, w1)) as (st & w1 & He)
    by (vm_compute; eexists _, _; reflexivity).
  destruct (BatchSpend_repeated_key (names := exampleNames) exampleLimiter
              Background buckets w st w1 He)
    as (tats & nowTAT & _ & _ & _ & _ & _ & Ht & _).
  exists st, w1. split; [exact He|].
  split; [|split; [apply Ht|]];
    vm_compute in He; injection He as <- <-; vm_compute; reflexivity.
Defined.

(** Scenario 5 of the specification. Bucket A holds a TAT nine seconds ahead,
    bucket B is empty; a batch spending five from each is denied, and nothing
    is written. *)
Example BatchSpend_all_or_nothing :
  let w := exampleWorld {[ key (bucketA 5) := 9 * second ]} [] 0 [] in
  let r := BatchSpend (names := exampleNames) exampleLimiter Background
             [bucketA 5; bucketB 5] w in
  (Allowed <$> fst (fst r)) = Some false
  ∧ map call_op (calls (snd r))
    = [OpBatchGet [key (bucketA 5); key (bucketB 5)]]
  ∧ kv (client (w_source (snd r))) = {[ key (bucketA 5) := 9 * second ]}.
Proof. vm_compute. repeat split. Qed.

(** Scenario 6 of the specification. Bucket A holds a TAT three seconds
    ahead, bucket B is missing; a batch refunding one to each is allowed, and
    only the TAT of A is written. *)
Example BatchRefund_permissive :
  let w := exampleWorld {[ key (bucketA 1) := 3 * second ]} [] 0 [] in
  let r := BatchRefund (names := exampleNames) exampleLimiter Background
             [bucketA 1; bucketB 1] w in
  (Allowed <$> fst (fst r)) = Some true
  ∧ map call_op (writes w (snd r))
    = [OpBatchSet {[ key (bucketA 1) := 2 * second ]}].
Proof. vm_compute. repeat split. Qed.

(** * Further properties of the limiter *)

(** ** Single-bucket operations on a bucket the source holds *)

Section SingleExisting.
Context `{names : NameEnum} {S : Type} `{src : source S}.

(** A [Spend] within the burst on a bucket the source holds: the decision is
    the kernel's on the stored TAT; when it is allowed the new TAT is set,
    and the decision is returned unless the [Set] fails; when it is denied the
    decision is returned and the [Get] stays the only call. *)
Theorem Spend_existing (l : Limiter) (ctx : context) (bucket : BucketWithCost)
    (w : world S) (rl : limit) (tat : Time) (s1 : S) :
  0 < cost bucket → cost bucket ≤ Burst rl →
  getLimit l (name bucket) (key bucket) = (rl, None) →
  source_Get (WithoutCancel ctx) (key bucket) (w_source w) = ((tat, None), s1) →
  ∃ now d,
    w_time w ≤ now ∧ now ≤ w_time (snd (Spend l ctx bucket w))
    ∧ d = spendKernel rl tat (cost bucket) now
    ∧ if Allowed d then
        newCalls w (snd (Spend l ctx bucket w))
        = [Call (WithoutCancel ctx) (OpGet (key bucket));
           Call (WithoutCancel ctx) (OpSet (key bucket) (newTAT d))]
        ∧ fst (Spend l ctx bucket w)
          = match fst (source_Set (WithoutCancel ctx) (key bucket) (newTAT d) s1) with
            | None => (Some d, None)
            | Some e => (None, Some e)
            end
        ∧ w_source (snd (Spend l ctx bucket w))
          = snd (source_Set (WithoutCancel ctx) (key bucket) (newTAT d) s1)
      else
        newCalls w (snd (Spend l ctx bucket w))
        = [Call (WithoutCancel ctx) (OpGet (key bucket))]
        ∧ fst (Spend l ctx bucket w) = (Some d, None)
        ∧ w_source (snd (Spend l ctx bucket w)) = s1.
Proof.
  intros Hc Hb Hl Hg.
  set (t0 := w_time w + Z.of_N (hd 0%N (ticks w))).
  set (t1 := t0 + Z.of_N (hd 0%N (tl (ticks w)))).
  exists t1, (spendKernel rl tat (cost bucket) t1).
  unfold Spend. rewrite Hl.
  destruct (Z.leb_spec (cost bucket) 0); [lia|].
  destruct (Z.ltb_spec (Burst rl) (cost bucket)); [lia|].
  simpl. unfold bind, deferred, bind, Get, invoke, Now at 1. simpl.
  rewrite Hg. simpl.
  unfold maybeSpend, bind, Now, pure, Set_, invoke, newCalls. simpl.
  fold t0 t1.
  destruct (Allowed (spendKernel rl tat (cost bucket) t1)); simpl.
  - destruct (source_Set _ _ _ s1) as [[e'|] s2]; simpl;
      rewrite <-app_assoc, drop_app_length;
      repeat split; try done; unfold t1, t0; lia.
  - rewrite drop_app_length. repeat split; try done; unfold t1, t0; lia.
Qed.

(** A [Spend] whose [Get] fails with an error other than "not found" returns
    that error as it is, and makes no other call. *)
Theorem Spend_get_error (l : Limiter) (ctx : context) (bucket : BucketWithCost)
    (w : world S) (rl : limit) (tat : Time) (e : errval) (s1 : S) :
  0 < cost bucket → cost bucket ≤ Burst rl →
  getLimit l (name bucket) (key bucket) = (rl, None) →
  source_Get (WithoutCancel ctx) (key bucket) (w_source w) = ((tat, Some e), s1) →
  errors_Is (Some e) (Some ErrBucketNotFound) = false →
  fst (Spend l ctx bucket w) = (None, Some e)
  ∧ newCalls w (snd (Spend l ctx bucket w))
    = [Call (WithoutCancel ctx) (OpGet (key bucket))]
  ∧ w_source (snd (Spend l ctx bucket w)) = s1.
Proof.
  intros Hc Hb Hl Hg He.
  unfold Spend. rewrite Hl.
  destruct (Z.leb_spec (cost bucket) 0); [lia|].
  destruct (Z.ltb_spec (Burst rl) (cost bucket)); [lia|].
  simpl. unfold bind, deferred, bind, Get, invoke, Now, newCalls. simpl.
  rewrite Hg. simpl. rewrite He. simpl.
  by rewrite drop_app_length.
Qed.

(** A [Refund] on a bucket the source holds: the decision is the refund
    kernel's on the stored TAT; when it is allowed the new TAT is set, and the
    decision is returned together with the error of the [Set], if any; when it
    is denied the [Get] stays the only call. *)
Theorem Refund_existing (l : Limiter) (ctx : context) (bucket : BucketWithCost)
    (w : world S) (rl : limit) (tat : Time) (s1 : S) :
  0 < cost bucket →
  getLimit l (name bucket) (key bucket) = (rl, None) →
  source_Get (WithoutCancel ctx) (key bucket) (w_source w) = ((tat, None), s1) →
  ∃ now d,
    w_time w ≤ now ∧ now ≤ w_time (snd (Refund l ctx bucket w))
    ∧ d = refundKernel rl tat (cost bucket) now
    ∧ if Allowed d then
        newCalls w (snd (Refund l ctx bucket w))
        = [Call (WithoutCancel ctx) (OpGet (key bucket));
           Call (WithoutCancel ctx) (OpSet (key bucket) (newTAT d))]
        ∧ fst (Refund l ctx bucket w)
          = (Some d, fst (source_Set (WithoutCancel ctx) (key bucket) (newTAT d) s1))
        ∧ w_source (snd (Refund l ctx bucket w))
          = snd (source_Set (WithoutCancel ctx) (key bucket) (newTAT d) s1)
      else
        newCalls w (snd (Refund l ctx bucket w))
        = [Call (WithoutCancel ctx) (OpGet (key bucket))]
        ∧ fst (Refund l ctx bucket w) = (Some d, None)
        ∧ w_source (snd (Refund l ctx bucket w)) = s1.
Proof.
  intros Hc Hl Hg.
  set (t0 := w_time w + Z.of_N (hd 0%N (ticks w))).
  exists t0, (refundKernel rl tat (cost bucket) t0).
  unfold Refund. rewrite Hl.
  destruct (Z.leb_spec (cost bucket) 0); [lia|].
  simpl. unfold bind, Get, invoke. simpl.
  rewrite Hg. simpl.
  unfold maybeRefund, bind, Now, pure, Set_, invoke, newCalls. simpl.
  fold t0.
  destruct (Allowed (refundKernel rl tat (cost bucket) t0)); simpl.
  - destruct (source_Set _ _ _ s1) as [err s2]; simpl.
    rewrite <-app_assoc, drop_app_length.
    repeat split; try done; unfold t0; lia.
  - rewrite drop_app_length. repeat split; try done; unfold t0; lia.
Qed.

(** What [Check] returns, for a cost from zero to the burst, by the answer of
    the source: the kernel's decision on the stored TAT; for a bucket that is
    not found, the kernel's decision on a TAT that is the time of the clock;
    for any other error, that error. In each case the [Get] is its only
    call. *)
Theorem Check_decision (l : Limiter) (ctx : context) (bucket : BucketWithCost)
    (w : world S) (rl : limit) (tat : Time) (err : error) (s1 : S) :
  0 ≤ cost bucket → cost bucket ≤ Burst rl →
  getLimit l (name bucket) (key bucket) = (rl, None) →
  source_Get (WithoutCancel ctx) (key bucket) (w_source w) = ((tat, err), s1) →
  newCalls w (snd (Check l ctx bucket w))
    = [Call (WithoutCancel ctx) (OpGet (key bucket))]
  ∧ w_source (snd (Check l ctx bucket w)) = s1
  ∧ match err with
    | None =>
        ∃ now, w_time w ≤ now ∧ now ≤ w_time (snd (Check l ctx bucket w))
          ∧ fst (Check l ctx bucket w)
            = (Some (spendKernel rl tat (cost bucket) now), None)
    | Some e =>
        if errors_Is (Some e) (Some ErrBucketNotFound) then
          ∃ t1 t2, w_time w ≤ t1 ∧ t1 ≤ t2
            ∧ t2 ≤ w_time (snd (Check l ctx bucket w))
            ∧ fst (Check l ctx bucket w)
              = (Some (spendKernel rl t1 (cost bucket) t2), None)
        else fst (Check l ctx bucket w) = (None, Some e)
    end.
Proof.
  intros Hc Hb Hl Hg.
  set (t0 := w_time w + Z.of_N (hd 0%N (ticks w))).
  set (t1 := t0 + Z.of_N (hd 0%N (tl (ticks w)))).
  unfold Check. rewrite Hl.
  destruct (Z.ltb_spec (cost bucket) 0); [lia|].
  destruct (Z.ltb_spec (Burst rl) (cost bucket)); [lia|].
  simpl. unfold bind, Get, invoke, newCalls. simpl.
  rewrite Hg. simpl.
  destruct err as [e|]; simpl.
  - destruct (errors_Is (Some e) (Some ErrBucketNotFound)); simpl;
      rewrite drop_app_length; repeat split.
    exists t0, t1. fold t0 t1. repeat split; unfold t1, t0; lia.
  - rewrite drop_app_length. repeat split.
    exists t0. fold t0. repeat split; unfold t0; lia.
Qed.

End SingleExisting.

(** ** What is rejected, or allowed, before the source is called *)

Section Early.
Context `{names : NameEnum} {S : Type} `{src : source S}.

(** A cost that is not positive (negative, for [Check]) is rejected by every
    operation before anything else happens: the world is left as it was. In a
    batch it is enough that one bucket has such a cost, wherever it stands. *)
Theorem invalid_cost_rejected (l : Limiter) (ctx : context)
    (bucket : BucketWithCost) (buckets : list BucketWithCost) (w : world S) :
  (cost bucket < 0 →
   Check l ctx bucket w = ((None, Some ErrInvalidCostForCheck), w))
  ∧ (cost bucket ≤ 0 →
     Spend l ctx bucket w = ((None, Some ErrInvalidCost), w)
     ∧ Refund l ctx bucket w = ((None, Some ErrInvalidCost), w))
  ∧ (Exists (fun b => cost b ≤ 0) buckets →
     BatchSpend l ctx buckets w = ((None, Some ErrInvalidCost), w)
     ∧ BatchRefund l ctx buckets w = ((None, Some ErrInvalidCost), w)).
Proof.
  split; [|split].
  - intros Hc. unfold Check.
    by destruct (Z.ltb_spec (cost bucket) 0); [|lia].
  - intros Hc. unfold Spend, Refund.
    by destruct (Z.leb_spec (cost bucket) 0); [|lia].
  - intros Hc.
    assert (buckets ≠ []) as Hne by (intros ->; by apply Exists_nil in Hc).
    assert (¬ Forall (fun b => 0 < cost b) buckets) as Hn.
    { intros Hf. apply Exists_exists in Hc as (b & Hin & Hb).
      rewrite Forall_forall in Hf. specialize (Hf b Hin). lia. }
    unfold BatchSpend, BatchRefund, batchSpendEvaluate, batchRefundEvaluate.
    rewrite bool_decide_eq_false_2 by (by destruct buckets).
    rewrite collectKeys_spec, bool_decide_eq_false_2 by done.
    done.
Qed.

(** An empty batch is rejected, and the world is left as it was. *)
Theorem empty_batch_rejected (l : Limiter) (ctx : context) (w : world S) :
  BatchSpend l ctx [] w = ((None, Some errZeroBucketsInBatch), w)
  ∧ BatchRefund l ctx [] w = ((None, Some errZeroBucketsInBatch), w).
Proof. done. Qed.

(** For a bucket whose limit is disabled, [Check], [Spend] and [Refund] return
    the allowed decision with all fields zero, whatever the (valid) cost, and
    leave the world as it was: the source is not called and the clock is not
    read. *)
Theorem disabled_limit_allows (l : Limiter) (ctx : context)
    (bucket : BucketWithCost) (w : world S) :
  disabled l bucket →
  (0 ≤ cost bucket →
   Check l ctx bucket w = ((Some disabledLimitDecision, None), w))
  ∧ (0 < cost bucket →
     Spend l ctx bucket w = ((Some disabledLimitDecision, None), w)
     ∧ Refund l ctx bucket w = ((Some disabledLimitDecision, None), w)).
Proof.
  unfold disabled. intros Hd.
  destruct (getLimit l (name bucket) (key bucket)) as [rl err] eqn:Hl.
  simpl in Hd. subst err. split.
  - intros Hc. unfold Check. rewrite Hl.
    by destruct (Z.ltb_spec (cost bucket) 0); [lia|].
  - intros Hc. unfold Spend, Refund. rewrite Hl.
    by destruct (Z.leb_spec (cost bucket) 0); [lia|].
Qed.

(** For a bucket whose name is not a valid one, [Check], [Spend] and [Refund]
    return the error of [getLimit], and leave the world as it was. *)
Theorem invalid_name_rejected (l : Limiter) (ctx : context)
    (bucket : BucketWithCost) (w : world S) :
  isValid (name bucket) = false →
  (0 ≤ cost bucket →
   Check l ctx bucket w = ((None, Some (errInvalidName (name bucket))), w))
  ∧ (0 < cost bucket →
     Spend l ctx bucket w = ((None, Some (errInvalidName (name bucket))), w)
     ∧ Refund l ctx bucket w = ((None, Some (errInvalidName (name bucket))), w)).
Proof.
  intros Hv.
  assert (getLimit l (name bucket) (key bucket)
          = (limit_zero, Some (errInvalidName (name bucket)))) as Hl
    by (unfold getLimit; by rewrite Hv).
  split.
  - intros Hc. unfold Check. rewrite Hl.
    by destruct (Z.ltb_spec (cost bucket) 0); [lia|].
  - intros Hc. unfold Spend, Refund. rewrite Hl.
    by destruct (Z.leb_spec (cost bucket) 0); [lia|].
Qed.

(** A cost over the burst of the limit is rejected by [Check] and [Spend],
    and the world is left as it was. *)
Theorem cost_over_burst_rejected (l : Limiter) (ctx : context)
    (bucket : BucketWithCost) (w : world S) (rl : limit) :
  getLimit l (name bucket) (key bucket) = (rl, None) →
  0 < cost bucket → Burst rl < cost bucket →
  Check l ctx bucket w = ((None, Some ErrInvalidCostOverLimit), w)
  ∧ Spend l ctx bucket w = ((None, Some ErrInvalidCostOverLimit), w).
Proof.
  intros Hl Hc Hb. unfold Check, Spend. rewrite Hl.
  destruct (Z.ltb_spec (cost bucket) 0); [lia|].
  destruct (Z.leb_spec (cost bucket) 0); [lia|].
  by destruct (Z.ltb_spec (Burst rl) (cost bucket)); [|lia].
Qed.

End Early.

(** ** Batches: what is consolidated, what is written, what fails *)

Section BatchesMore.
Context `{names : NameEnum} {S : Type} `{src : source S}.

Lemma foldr_min_snoc (m x : Z) (xs : list Z) :
  foldr Z.min m (xs ++ [x]) = Z.min (foldr Z.min m xs) x.
Proof. induction xs as [|y xs IH]; simpl; [lia|]. rewrite IH. lia. Qed.

Lemma foldr_max_snoc (m x : Z) (xs : list Z) :
  foldr Z.max m (xs ++ [x]) = Z.max (foldr Z.max m xs) x.
Proof. induction xs as [|y xs IH]; simpl; [lia|]. rewrite IH. lia. Qed.

Lemma foldr_min_le (m x : Z) (xs : list Z) :
  x ∈ xs → foldr Z.min m xs ≤ x.
Proof.
  induction xs as [|y xs IH]; intros Hin; [by apply not_elem_of_nil in Hin|].
  simpl. apply elem_of_cons in Hin as [->|Hin]; [lia|].
  specialize (IH Hin). lia.
Qed.

Lemma foldr_max_ge (m x : Z) (xs : list Z) :
  x ∈ xs → x ≤ foldr Z.max m xs.
Proof.
  induction xs as [|y xs IH]; intros Hin; [by apply not_elem_of_nil in Hin|].
  simpl. apply elem_of_cons in Hin as [->|Hin]; [lia|].
  specialize (IH Hin). lia.
Qed.

Lemma foldr_max_init (m : Z) (xs : list Z) : m ≤ foldr Z.max m xs.
Proof. induction xs as [|y xs IH]; simpl; lia. Qed.

Lemma update_aggregated (combine : bool → bool → bool) (st : batch)
    (bucket : BucketWithCost) (rl : limit) (tat : Time) (d : Decision) :
  aggregated st → aggregated (update combine st bucket rl tat d).
Proof.
  intros (Hr & Hw & Hs & Ht). unfold aggregated, decisions. simpl.
  rewrite !map_app. simpl.
  rewrite foldr_min_snoc, !foldr_max_snoc.
  unfold decisions in *. rewrite <-Hr, <-Hw, <-Hs, <-Ht.
  repeat split. unfold After.
  destruct (Z.ltb_spec (maxNewTAT st) (newTAT d)); lia.
Qed.

(** Whatever the update of the state keeps, the loops keep. *)
Lemma spendLoop_invariant (P : batch → Prop) (l : Limiter)
    (tats : gmap string Time) (nowTAT : Time)
    (buckets : list BucketWithCost) (st : batch) (w : world S) :
  (∀ st b rl tat d, P st → P (update andb st b rl tat d)) → P st →
  match fst (spendLoop l tats nowTAT buckets st w) with
  | inr st' => P st'
  | inl _ => True
  end.
Proof.
  intros Hup. revert st w.
  induction buckets as [|b rest IH]; intros st w HP; simpl; [done|].
  destruct (getLimit l (name b) (key b)) as [rl [e|]].
  - rewrite bool_decide_eq_true_2 by done.
    destruct (errors_Is _ _); [by apply IH|done].
  - rewrite bool_decide_eq_false_2 by (intros ?; done).
    unfold bind at 1. unfold maybeSpend, bind, Now, pure. simpl.
    apply IH, Hup, HP.
Qed.

Lemma refundLoop_invariant (P : batch → Prop) (l : Limiter)
    (tats : gmap string Time)
    (buckets : list BucketWithCost) (st : batch) (w : world S) :
  (∀ st b rl tat d, P st → P (update orb st b rl tat d)) → P st →
  match fst (refundLoop l tats buckets st w) with
  | inr st' => P st'
  | inl _ => True
  end.
Proof.
  intros Hup. revert st w.
  induction buckets as [|b rest IH]; intros st w HP; simpl; [done|].
  destruct (getLimit l (name b) (key b)) as [rl [e|]].
  - rewrite bool_decide_eq_true_2 by done.
    destruct (errors_Is _ _); [by apply IH|done].
  - rewrite bool_decide_eq_false_2 by (intros ?; done).
    destruct (negb _ || _); [by apply IH|].
    unfold bind at 1. unfold maybeRefund, bind, Now, pure. simpl.
    apply IH, Hup, HP.
Qed.

Lemma forallb_fmap {A B} (f : B → bool) (g : A → B) (xs : list A) :
  forallb f (map g xs) = forallb (fun x => f (g x)) xs.
Proof. induction xs as [|x xs IH]; simpl; [done|]. by rewrite IH. Qed.

Lemma existsb_fmap {A B} (f : B → bool) (g : A → B) (xs : list A) :
  existsb f (map g xs) = existsb (fun x => f (g x)) xs.
Proof. induction xs as [|x xs IH]; simpl; [done|]. by rewrite IH. Qed.

Lemma batch_init_aggregated (allowed0 : bool) : aggregated (batch_init allowed0).
Proof. done. Qed.

Lemma batchSpendEvaluate_aggregated (l : Limiter) (ctx : context)
    (buckets : list BucketWithCost) (w : world S) (st : batch) (w1 : world S) :
  batchSpendEvaluate l ctx buckets w = (inr st, w1) → aggregated st.
Proof.
  intros H. unfold batchSpendEvaluate in H.
  case_bool_decide; [discriminate H|].
  destruct (collectKeys buckets []); [discriminate H|].
  simpl in H. unfold bind at 1 in H. unfold BatchGet, invoke in H.
  destruct (source_BatchGet _ _ _) as [[tats err] s1].
  case_bool_decide; [discriminate H|].
  unfold bind at 1 in H. unfold Now at 1 in H. simpl in H.
  unfold bind in H.
  match type of H with
  | context [spendLoop ?a ?b ?c ?d ?e ?f] =>
      pose proof (spendLoop_invariant aggregated a b c d e f
                    (update_aggregated andb) (batch_init_aggregated true)) as Hi;
      destruct (spendLoop a b c d e f) as [[err'|st'] w']
  end; [discriminate H|].
  injection H as <- _. exact Hi.
Qed.

Lemma batchRefundEvaluate_aggregated (l : Limiter) (ctx : context)
    (buckets : list BucketWithCost) (w : world S) (st : batch) (w1 : world S) :
  batchRefundEvaluate l ctx buckets w = (inr st, w1) → aggregated st.
Proof.
  intros H. unfold batchRefundEvaluate in H.
  case_bool_decide; [discriminate H|].
  destruct (collectKeys buckets []); [discriminate H|].
  simpl in H. unfold bind at 1 in H. unfold BatchGet, invoke in H.
  destruct (source_BatchGet _ _ _) as [[tats err] s1].
  case_bool_decide; [discriminate H|].
  unfold bind in H.
  match type of H with
  | context [refundLoop ?a ?b ?c ?d ?e] =>
      pose proof (refundLoop_invariant aggregated a b c d e
                    (update_aggregated orb) (batch_init_aggregated false)) as Hi;
      destruct (refundLoop a b c d e) as [[err'|st'] w']
  end; [discriminate H|].
  injection H as <- _. exact Hi.
Qed.

Lemma aggregated_bounds (st : batch) (d : Decision) :
  aggregated st → d ∈ decisions st →
  minRemaining st ≤ Remaining d ∧ RetryIn d ≤ maxRetryIn st
  ∧ ResetIn d ≤ maxResetIn st ∧ newTAT d ≤ maxNewTAT st.
Proof.
  intros (-> & -> & -> & ->) Hin. repeat split.
  - apply foldr_min_le. by apply list_elem_of_fmap_2.
  - apply foldr_max_ge. by apply list_elem_of_fmap_2.
  - apply foldr_max_ge. by apply list_elem_of_fmap_2.
  - apply foldr_max_ge. by apply list_elem_of_fmap_2.
Qed.

(** The decision [BatchSpend] returns consolidates the decisions of the
    buckets it evaluated: it has the least of their remaining capacities (and
    [math.MaxInt64] when there is none), the greatest of their waits before a
    retry and before a reset (and no less than zero), and the latest of their
    new TATs. *)
Theorem BatchSpend_consolidates (l : Limiter) (ctx : context)
    (buckets : list BucketWithCost) (w : world S) (d : Decision) :
  fst (BatchSpend l ctx buckets w) = (Some d, None) →
  ∃ st w1,
    batchSpendEvaluate l ctx buckets w = (inr st, w1)
    ∧ Allowed d = forallb Allowed (decisions st)
    ∧ Remaining d = foldr Z.min MaxInt64 (map Remaining (decisions st))
    ∧ RetryIn d = foldr Z.max 0 (map RetryIn (decisions st))
    ∧ ResetIn d = foldr Z.max 0 (map ResetIn (decisions st))
    ∧ newTAT d = foldr Z.max zeroTime (map newTAT (decisions st))
    ∧ ∀ d', d' ∈ decisions st →
        Remaining d ≤ Remaining d' ∧ RetryIn d' ≤ RetryIn d
        ∧ ResetIn d' ≤ ResetIn d ∧ newTAT d' ≤ newTAT d.
Proof.
  intros Hr.
  destruct (batchSpendEvaluate l ctx buckets w) as [[early|st] w1] eqn:He.
  { destruct (BatchSpend_early _ _ _ _ _ _ He) as [Hf _].
    rewrite Hf in Hr. subst early.
    unfold batchSpendEvaluate in He.
    repeat (case_match; simpl in He; try discriminate He).
    all: unfold bind, pure, BatchGet, invoke in He;
      repeat (case_match; simpl in He; try discriminate He);
      simplify_eq. }
  exists st, w1. split; [done|].
  destruct (BatchSpend_after_loop _ _ _ _ _ _ He) as [_ Hf].
  rewrite Hf in Hr.
  assert (d = consolidated st) as ->
    by (repeat case_match; simplify_eq; done).
  pose proof (batchSpendEvaluate_aggregated _ _ _ _ _ _ He) as Ha.
  destruct (batchSpendEvaluate_inr _ _ _ _ _ _ He) as (_ & _ & _ & Hal & _).
  pose proof Ha as (H1 & H2 & H3 & H4). simpl.
  repeat split; try done.
  - rewrite Hal. unfold decisions. by rewrite forallb_fmap.
  - by apply aggregated_bounds.
  - by apply aggregated_bounds.
  - by apply aggregated_bounds.
  - by apply aggregated_bounds.
Qed.

(** The decision [BatchRefund] returns consolidates the decisions of the
    refunds it evaluated, in the same way, except that it is allowed when one
    of them is. *)
Theorem BatchRefund_consolidates (l : Limiter) (ctx : context)
    (buckets : list BucketWithCost) (w : world S) (d : Decision) :
  fst (BatchRefund l ctx buckets w) = (Some d, None) →
  ∃ st w1,
    batchRefundEvaluate l ctx buckets w = (inr st, w1)
    ∧ Allowed d = existsb Allowed (decisions st)
    ∧ Remaining d = foldr Z.min MaxInt64 (map Remaining (decisions st))
    ∧ RetryIn d = foldr Z.max 0 (map RetryIn (decisions st))
    ∧ ResetIn d = foldr Z.max 0 (map ResetIn (decisions st))
    ∧ newTAT d = foldr Z.max zeroTime (map newTAT (decisions st))
    ∧ ∀ d', d' ∈ decisions st →
        Remaining d ≤ Remaining d' ∧ RetryIn d' ≤ RetryIn d
        ∧ ResetIn d' ≤ ResetIn d ∧ newTAT d' ≤ newTAT d.
Proof.
  intros Hr.
  destruct (batchRefundEvaluate l ctx buckets w) as [[early|st] w1] eqn:He.
  { destruct (BatchRefund_early _ _ _ _ _ _ He) as [Hf _].
    rewrite Hf in Hr. subst early.
    unfold batchRefundEvaluate in He.
    repeat (case_match; simpl in He; try discriminate He).
    all: unfold bind, pure, BatchGet, invoke in He;
      repeat (case_match; simpl in He; try discriminate He);
      simplify_eq. }
  exists st, w1. split; [done|].
  destruct (BatchRefund_after_loop _ _ _ _ _ _ He) as [_ Hf].
  rewrite Hf in Hr.
  assert (d = consolidated st) as ->
    by (repeat case_match; simplify_eq; done).
  pose proof (batchRefundEvaluate_aggregated _ _ _ _ _ _ He) as Ha.
  destruct (batchRefundEvaluate_inr _ _ _ _ _ _ He) as (_ & _ & _ & Hal & _).
  pose proof Ha as (H1 & H2 & H3 & H4). simpl.
  repeat split; try done.
  - rewrite Hal. unfold decisions. by rewrite existsb_fmap.
  - by apply aggregated_bounds.
  - by apply aggregated_bounds.
  - by apply aggregated_bounds.
  - by apply aggregated_bounds.
Qed.

(** The calls of a batch that reaches the end of its second loop: the
    batch-get, then the batch-set if there is one. *)
Lemma BatchSpend_calls (l : Limiter) (ctx : context)
    (buckets : list BucketWithCost) (w : world S) (st : batch) (w1 : world S) :
  batchSpendEvaluate l ctx buckets w = (inr st, w1) →
  newCalls w (snd (BatchSpend l ctx buckets w))
  = Call (WithoutCancel ctx) (OpBatchGet (map key buckets))
    :: (if bool_decide (allowed st = true ∧ newTATs st ≠ ∅)
        then [Call (WithoutCancel ctx) (OpBatchSet (newTATs st))] else []).
Proof.
  intros He.
  destruct (batchSpendEvaluate_inr _ _ _ _ _ _ He)
    as (_ & _ & _ & _ & _ & Hc & _).
  destruct (batchSpendPersist_spec (WithoutCancel ctx) st w1) as [Hp _].
  unfold BatchSpend, bind. rewrite He.
  rewrite Hc, <-app_assoc in Hp. unfold newCalls.
  by rewrite Hp, drop_app_length.
Qed.

Lemma BatchRefund_calls (l : Limiter) (ctx : context)
    (buckets : list BucketWithCost) (w : world S) (st : batch) (w1 : world S) :
  batchRefundEvaluate l ctx buckets w = (inr st, w1) →
  newCalls w (snd (BatchRefund l ctx buckets w))
  = Call (WithoutCancel ctx) (OpBatchGet (map key buckets))
    :: (if bool_decide (newTATs st ≠ ∅)
        then [Call (WithoutCancel ctx) (OpBatchSet (newTATs st))] else []).
Proof.
  intros He.
  destruct (batchRefundEvaluate_inr _ _ _ _ _ _ He) as (_ & _ & _ & _ & Hc & _).
  destruct (batchRefundPersist_spec (WithoutCancel ctx) st w1) as [Hp _].
  unfold BatchRefund, bind. rewrite He.
  rewrite Hc, <-app_assoc in Hp. unfold newCalls.
  by rewrite Hp, drop_app_length.
Qed.

(** The only call of [BatchSpend] that writes is a batch-set, and each key it
    sets is the key of a bucket of the batch whose limit resolves: no other
    key of the source is touched. *)
Theorem BatchSpend_writes_batch_keys (l : Limiter) (ctx : context)
    (buckets : list BucketWithCost) (w : world S) :
  Forall (fun c =>
            match call_op c with
            | OpBatchSet m =>
                ∀ k, is_Some (m !! k) →
                     ∃ b, b ∈ buckets ∧ key b = k ∧ enabled l b
            | OpSet _ _ | OpDelete _ => False
            | OpGet _ | OpBatchGet _ => True
            end)
         (newCalls w (snd (BatchSpend l ctx buckets w))).
Proof.
  destruct (batchSpendEvaluate l ctx buckets w) as [[early|st] w1] eqn:He.
  - pose proof (adds_newCalls reads _ w
                  (batchSpendEvaluate_adds_reads l ctx buckets)) as Hr.
    unfold BatchSpend, bind. rewrite He in *. simpl in *.
    eapply Forall_impl; [exact Hr|].
    intros [c op]. unfold reads, isWrite. simpl. by destruct op.
  - rewrite (BatchSpend_calls _ _ _ _ _ _ He).
    constructor; [done|]. case_bool_decide; [|constructor].
    constructor; [|constructor]. simpl. intros k Hk.
    destruct (batchSpendEvaluate_inr _ _ _ _ _ _ He)
      as (_ & _ & Ht & _ & Hm & _).
    apply (tracked_lookup _ _ Ht) in Hk as (ev & Hin & _ & Hk).
    assert (ev_bucket ev ∈ filter (enabled l) buckets) as Hb
      by (rewrite <-Hm; by apply list_elem_of_fmap_2).
    apply list_elem_of_filter in Hb as [Hen Hb].
    by exists (ev_bucket ev).
Qed.

(** The only call of [BatchRefund] that writes is a batch-set, and each key
    it sets is a key of the batch that the batch-get found: a refund never
    creates a bucket. *)
Theorem BatchRefund_writes_found_keys (l : Limiter) (ctx : context)
    (buckets : list BucketWithCost) (w : world S) :
  Forall (fun c =>
            match call_op c with
            | OpBatchSet m =>
                ∀ k, is_Some (m !! k) →
                  is_Some
                    (fst (fst (source_BatchGet (WithoutCancel ctx)
                                 (map key buckets) (w_source w))) !! k)
                  ∧ ∃ b, b ∈ buckets ∧ key b = k ∧ enabled l b
            | OpSet _ _ | OpDelete _ => False
            | OpGet _ | OpBatchGet _ => True
            end)
         (newCalls w (snd (BatchRefund l ctx buckets w))).
Proof.
  destruct (batchRefundEvaluate l ctx buckets w) as [[early|st] w1] eqn:He.
  - pose proof (adds_newCalls reads _ w
                  (batchRefundEvaluate_adds_reads l ctx buckets)) as Hr.
    unfold BatchRefund, bind. rewrite He in *. simpl in *.
    eapply Forall_impl; [exact Hr|].
    intros [c op]. unfold reads, isWrite. simpl. by destruct op.
  - rewrite (BatchRefund_calls _ _ _ _ _ _ He).
    constructor; [done|]. case_bool_decide; [|constructor].
    constructor; [|constructor]. simpl. intros k Hk.
    destruct (batchRefundEvaluate_inr _ _ _ _ _ _ He)
      as (_ & _ & Ht & _ & _ & tats & Hg & Hm & _).
    rewrite Hg. simpl.
    apply (tracked_lookup _ _ Ht) in Hk as (ev & Hin & _ & Hk).
    assert (ev_bucket ev ∈ filter (refundable l tats) buckets) as Hb
      by (rewrite <-Hm; by apply list_elem_of_fmap_2).
    apply list_elem_of_filter in Hb as [[Hen Hz] Hb].
    rewrite Hk in Hz. split; [|by exists (ev_bucket ev)].
    by destruct (tats !! k).
Qed.

(** The loop of [BatchRefund] skips a bucket that is not refundable. *)
Lemma refundLoop_skips (l : Limiter) (tats : gmap string Time)
    (buckets : list BucketWithCost) (st : batch) (w : world S) :
  Forall (fun b => isValid (name b) = true) buckets →
  Forall (fun b => ¬ refundable l tats b) buckets →
  refundLoop l tats buckets st w = (inr st, w).
Proof.
  induction buckets as [|b rest IH]; intros Hv Hn; [done|].
  apply Forall_cons in Hv as [Hvb Hv]. apply Forall_cons in Hn as [Hnb Hn].
  simpl.
  destruct (getLimit l (name b) (key b)) as [rl [e|]] eqn:Hl.
  - rewrite bool_decide_eq_true_2 by done.
    apply getLimit_error in Hl as (_ & [[-> _]|[_ ?]]); [|congruence].
    by apply IH.
  - rewrite bool_decide_eq_false_2 by (intros ?; done).
    assert (negb (bool_decide (is_Some (tats !! key b)))
            || IsZero (default zeroTime (tats !! key b)) = true) as ->.
    { unfold refundable, enabled in Hnb. rewrite Hl in Hnb. simpl in Hnb.
      destruct (tats !! key b) as [t|]; simpl; [|done].
      destruct (IsZero t) eqn:Hz; [done|]. destruct Hnb.
      simpl. by rewrite Hz. }
    by apply IH.
Qed.

(** A [BatchRefund] of buckets none of which the batch-get found (or found
    with the zero time): nothing is evaluated, the decision returned is the
    denied one with the initial values, and the batch-get is the only thing
    that happened: no write, and no read of the clock. *)
Theorem BatchRefund_nothing_to_refund (l : Limiter) (ctx : context)
    (buckets : list BucketWithCost) (w : world S)
    (tats : gmap string Time) (s1 : S) :
  buckets ≠ [] → Forall (fun b => 0 < cost b) buckets →
  Forall (fun b => isValid (name b) = true) buckets →
  source_BatchGet (WithoutCancel ctx) (map key buckets) (w_source w)
    = ((tats, None), s1) →
  Forall (fun b => ¬ refundable l tats b) buckets →
  BatchRefund l ctx buckets w
  = ((Some {| Allowed := false; Remaining := MaxInt64; RetryIn := 0;
              ResetIn := 0; newTAT := zeroTime |}, None),
     World s1 (calls w ++ [Call (WithoutCancel ctx) (OpBatchGet (map key buckets))])
       (w_time w) (ticks w)).
Proof.
  intros Hne Hc Hv Hg Hn.
  unfold BatchRefund, batchRefundEvaluate.
  rewrite bool_decide_eq_false_2 by (by destruct buckets).
  rewrite collectKeys_spec, bool_decide_eq_true_2 by done. simpl.
  unfold bind, BatchGet, invoke. rewrite Hg. simpl.
  rewrite refundLoop_skips by done.
  unfold batchRefundPersist, bind, pure. by simpl.
Qed.

(** The loops stop at the first bucket whose name is not valid, with the
    error of [getLimit] for it. *)
Lemma spendLoop_invalid_name (l : Limiter) (tats : gmap string Time)
    (nowTAT : Time) (pre post : list BucketWithCost) (b : BucketWithCost)
    (st : batch) (w : world S) :
  Forall (fun b => isValid (name b) = true) pre →
  isValid (name b) = false →
  fst (spendLoop l tats nowTAT (pre ++ b :: post) st w)
  = inl (Some (errInvalidName (name b))).
Proof.
  intros Hv Hb. revert st w.
  induction Hv as [|a pre Ha _ IH]; intros st w; simpl.
  - unfold getLimit. by rewrite Hb.
  - destruct (getLimit l (name a) (key a)) as [rl [e|]] eqn:Hl.
    + rewrite bool_decide_eq_true_2 by done.
      apply getLimit_error in Hl as (_ & [[-> _]|[_ ?]]); [|congruence].
      apply IH.
    + rewrite bool_decide_eq_false_2 by (intros ?; done).
      unfold bind at 1. unfold maybeSpend, bind, Now, pure. simpl. apply IH.
Qed.

Lemma refundLoop_invalid_name (l : Limiter) (tats : gmap string Time)
    (pre post : list BucketWithCost) (b : BucketWithCost)
    (st : batch) (w : world S) :
  Forall (fun b => isValid (name b) = true) pre →
  isValid (name b) = false →
  fst (refundLoop l tats (pre ++ b :: post) st w)
  = inl (Some (errInvalidName (name b))).
Proof.
  intros Hv Hb. revert st w.
  induction Hv as [|a pre Ha _ IH]; intros st w; simpl.
  - unfold getLimit. by rewrite Hb.
  - destruct (getLimit l (name a) (key a)) as [rl [e|]] eqn:Hl.
    + rewrite bool_decide_eq_true_2 by done.
      apply getLimit_error in Hl as (_ & [[-> _]|[_ ?]]); [|congruence].
      apply IH.
    + rewrite bool_decide_eq_false_2 by (intros ?; done).
      destruct (negb _ || _); [apply IH|].
      unfold bind at 1. unfold maybeRefund, bind, Now, pure. simpl. apply IH.
Qed.

(** A batch with a bucket whose name is not valid: once the batch-get has
    succeeded, [BatchSpend] and [BatchRefund] return the error of [getLimit]
    for the first such bucket, whatever the decisions for the buckets before
    it, and write nothing. *)
Theorem batch_invalid_name (l : Limiter) (ctx : context)
    (pre post : list BucketWithCost) (b : BucketWithCost) (w : world S) :
  Forall (fun b => 0 < cost b) (pre ++ b :: post) →
  Forall (fun b => isValid (name b) = true) pre →
  isValid (name b) = false →
  snd (fst (source_BatchGet (WithoutCancel ctx) (map key (pre ++ b :: post))
              (w_source w))) = None →
  fst (BatchSpend l ctx (pre ++ b :: post) w)
    = (None, Some (errInvalidName (name b)))
  ∧ writes w (snd (BatchSpend l ctx (pre ++ b :: post) w)) = []
  ∧ fst (BatchRefund l ctx (pre ++ b :: post) w)
    = (None, Some (errInvalidName (name b)))
  ∧ writes w (snd (BatchRefund l ctx (pre ++ b :: post) w)) = [].
Proof.
  intros Hc Hv Hb Hg.
  assert (fst (batchSpendEvaluate l ctx (pre ++ b :: post) w)
          = inl (None, Some (errInvalidName (name b)))) as Hs.
  { unfold batchSpendEvaluate.
    rewrite bool_decide_eq_false_2 by (by destruct pre).
    rewrite collectKeys_spec, bool_decide_eq_true_2 by done. simpl.
    unfold bind at 1. unfold BatchGet, invoke.
    destruct (source_BatchGet _ _ (w_source w)) as [[tats err] s1].
    simpl in Hg. subst err. simpl.
    unfold bind at 1. unfold Now at 1. simpl. unfold bind.
    match goal with
    | |- context [spendLoop ?x1 ?x2 ?x3 ?x4 ?x5 ?x6] =>
        pose proof (spendLoop_invalid_name x1 x2 x3 pre post b x5 x6 Hv Hb) as Hi;
        destruct (spendLoop x1 x2 x3 x4 x5 x6) as [r w']
    end.
    simpl in Hi. by subst r. }
  assert (fst (batchRefundEvaluate l ctx (pre ++ b :: post) w)
          = inl (None, Some (errInvalidName (name b)))) as Hr.
  { unfold batchRefundEvaluate.
    rewrite bool_decide_eq_false_2 by (by destruct pre).
    rewrite collectKeys_spec, bool_decide_eq_true_2 by done. simpl.
    unfold bind at 1. unfold BatchGet, invoke.
    destruct (source_BatchGet _ _ (w_source w)) as [[tats err] s1].
    simpl in Hg. subst err. simpl. unfold bind.
    match goal with
    | |- context [refundLoop ?x1 ?x2 ?x3 ?x4 ?x5] =>
        pose proof (refundLoop_invalid_name x1 x2 pre post b x4 x5 Hv Hb) as Hi;
        destruct (refundLoop x1 x2 x3 x4 x5) as [r w']
    end.
    simpl in Hi. by subst r. }
  destruct (batchSpendEvaluate l ctx (pre ++ b :: post) w) as [rs ws] eqn:Hes.
  destruct (batchRefundEvaluate l ctx (pre ++ b :: post) w) as [rr wr] eqn:Her.
  simpl in Hs, Hr. subst rs rr.
  destruct (BatchSpend_early _ _ _ _ _ _ Hes) as [-> ->].
  destruct (BatchRefund_early _ _ _ _ _ _ Her) as [-> ->].
  done.
Qed.

(** A batch whose batch-get fails: [BatchSpend] and [BatchRefund] return the
    error of the source as it is; the batch-get is the only thing that
    happened: nothing is evaluated, nothing is written. *)
Theorem batch_get_error (l : Limiter) (ctx : context)
    (buckets : list BucketWithCost) (w : world S)
    (tats : gmap string Time) (e : errval) (s1 : S) :
  buckets ≠ [] → Forall (fun b => 0 < cost b) buckets →
  source_BatchGet (WithoutCancel ctx) (map key buckets) (w_source w)
    = ((tats, Some e), s1) →
  let w1 := World s1 (calls w ++ [Call (WithoutCancel ctx)
                                    (OpBatchGet (map key buckets))])
              (w_time w) (ticks w) in
  BatchSpend l ctx buckets w = ((None, Some e), w1)
  ∧ BatchRefund l ctx buckets w = ((None, Some e), w1).
Proof.
  intros Hne Hc Hg w1.
  unfold BatchSpend, BatchRefund, batchSpendEvaluate, batchRefundEvaluate.
  rewrite bool_decide_eq_false_2 by (by destruct buckets).
  rewrite collectKeys_spec, bool_decide_eq_true_2 by done. simpl.
  unfold bind, BatchGet, invoke. rewrite Hg. by simpl.
Qed.

(** A [BatchSpend] whose batch-set fails returns the error of the source, and
    not the decision. *)
Theorem BatchSpend_batch_set_error (l : Limiter) (ctx : context)
    (buckets : list BucketWithCost) (w : world S) (st : batch) (w1 : world S)
    (e : errval) :
  batchSpendEvaluate l ctx buckets w = (inr st, w1) →
  allowed st = true → newTATs st ≠ ∅ →
  fst (source_BatchSet (WithoutCancel ctx) (newTATs st) (w_source w1)) = Some e →
  fst (BatchSpend l ctx buckets w) = (None, Some e).
Proof.
  intros He Ha Hn Hs.
  destruct (BatchSpend_after_loop _ _ _ _ _ _ He) as [_ ->].
  rewrite bool_decide_eq_true_2 by done. by rewrite Hs.
Qed.

End BatchesMore.

(** ** The Redis source *)

(** The cases of a Redis that serves: no fault is scripted, or the next
    round trip is scripted as served, and the ones after it too. *)
Ltac serving_tail fs Hs :=
  let e := fresh "e" in
  destruct fs as [|[e|] fs];
  [ | by apply Forall_cons in Hs as [? _]
    | apply Forall_cons in Hs as [_ Hs] ].

Ltac serving_cases r Hs :=
  let m := fresh "m" in
  let fs := fresh "fs" in
  let lat := fresh "lat" in
  let e := fresh "e" in
  destruct r as [[m fs] lat]; unfold serving in Hs; simpl in Hs;
  destruct fs as [|[e|] fs];
  [ | by apply Forall_cons in Hs as [? _]
    | apply Forall_cons in Hs as [_ Hs] ].

(** A [Get] that is served returns the TAT stored at the key, or
    [ErrBucketNotFound] when there is none; it changes no key, and observes
    one latency, labelled by which of the two happened. *)
Theorem RedisSource_Get_served (ctx : context) (k : string) (r : RedisSource) :
  serving r →
  fst (RedisSource_Get ctx k r)
    = match kv (client r) !! k with
      | Some tat => (tat, None)
      | None => (zeroTime, Some ErrBucketNotFound)
      end
  ∧ kv (client (snd (RedisSource_Get ctx k r))) = kv (client r)
  ∧ latency (snd (RedisSource_Get ctx k r))
    = latency r ++ [("get", match kv (client r) !! k with
                            | Some _ => "success"
                            | None => "notFound"
                            end)]
  ∧ serving (snd (RedisSource_Get ctx k r)).
Proof.
  intros Hs. serving_cases r Hs;
    unfold RedisSource_Get, client_Get, reply, serving; simpl;
    destruct (m !! k); simpl; repeat split; done.
Qed.


(** A [Delete] that is served succeeds whether the key was there or not, and
    removes it; a [Get] of the key, served after it, reports
    [ErrBucketNotFound]; a second [Delete] changes nothing more. *)
Theorem RedisSource_Delete_Get (ctx ctx' : context) (k : string)
    (r : RedisSource) :
  serving r →
  fst (RedisSource_Delete ctx k r) = None
  ∧ kv (client (snd (RedisSource_Delete ctx k r))) = delete k (kv (client r))
  ∧ fst (RedisSource_Get ctx' k (snd (RedisSource_Delete ctx k r)))
    = (zeroTime, Some ErrBucketNotFound)
  ∧ fst (RedisSource_Delete ctx' k (snd (RedisSource_Delete ctx k r))) = None
  ∧ kv (client (snd (RedisSource_Delete ctx' k (snd (RedisSource_Delete ctx k r)))))
    = delete k (kv (client r)).
Proof.
  intros Hs. serving_cases r Hs.
  - unfold RedisSource_Delete, RedisSource_Get, client_Del, client_Get, reply.
    simpl. rewrite lookup_delete_eq. repeat split. apply delete_delete_eq.
  - unfold RedisSource_Delete, RedisSource_Get, client_Del, client_Get, reply.
    simpl. serving_tail fs Hs; simpl; rewrite lookup_delete_eq; repeat split;
      apply delete_delete_eq.
Qed.

(** The results of a pipeline of [GET]s that is served fail with [redis.Nil]
    only. *)
Lemma firstErr_reply (r : redis) (ks : list string) :
  firstErr (map (reply r) ks) = None
  ∨ firstErr (map (reply r) ks) = Some redis_Nil.
Proof.
  induction ks as [|k ks IH]; simpl; [by left|].
  unfold reply at 1 3. destruct (kv r !! k); simpl; [exact IH|by right].
Qed.

(** The loop of [BatchGet] over the results of a pipeline that was served:
    it ends without an error, having added the keys that are stored. *)
Lemma batchGetLoop_served (r : redis) (pre rest : list string)
    (tats : gmap string Time) :
  ∃ tats',
    batchGetLoop (pre ++ rest) (map (reply r) rest) (length pre) tats = inl tats'
    ∧ ∀ k, tats' !! k
           = match (if bool_decide (k ∈ rest) then kv r !! k else None) with
             | Some v => Some v
             | None => tats !! k
             end.
Proof.
  revert pre tats. induction rest as [|k0 rest IH]; intros pre tats; simpl.
  - exists tats. split; [done|]. intros k. done.
  - unfold reply at 1.
    replace (pre ++ k0 :: rest) with ((pre ++ [k0]) ++ rest)
      by (by rewrite <-app_assoc).
    replace (Datatypes.S (length pre)) with (length (pre ++ [k0]))
      by (rewrite length_app; simpl; lia).
    destruct (kv r !! k0) as [v|] eqn:Hk0; simpl.
    + replace (((pre ++ [k0]) ++ rest) !! length pre) with (Some k0)
        by (rewrite <-app_assoc; simpl; by rewrite list_lookup_middle).
      destruct (IH (pre ++ [k0]) (<[k0 := v]> tats)) as (tats' & -> & Ht).
      exists tats'. split; [done|]. intros k. rewrite Ht.
      destruct (decide (k = k0)) as [->|Hne].
      * rewrite (bool_decide_eq_true_2 (k0 ∈ k0 :: rest)) by left.
        rewrite Hk0, lookup_insert_eq. by case_bool_decide.
      * rewrite lookup_insert_ne by done.
        apply (f_equal (fun b : bool =>
                 match (if b then kv r !! k else None) with
                 | Some v0 => Some v0 | None => tats !! k end)).
        apply bool_decide_ext. rewrite elem_of_cons.
        split; [by right|by intros [?|?]].
    + destruct (IH (pre ++ [k0]) tats) as (tats' & -> & Ht).
      exists tats'. split; [done|]. intros k. rewrite Ht.
      destruct (decide (k = k0)) as [->|Hne].
      * rewrite (bool_decide_eq_true_2 (k0 ∈ k0 :: rest)) by left.
        rewrite Hk0. by case_bool_decide.
      * apply (f_equal (fun b : bool =>
                 match (if b then kv r !! k else None) with
                 | Some v0 => Some v0 | None => tats !! k end)).
        apply bool_decide_ext. rewrite elem_of_cons.
        split; [by right|by intros [?|?]].
Qed.

(** What a [BatchGet] that is served returns. *)
Lemma RedisSource_BatchGet_lookup (ctx : context) (ks : list string)
    (r : RedisSource) :
  serving r →
  snd (fst (RedisSource_BatchGet ctx ks r)) = None
  ∧ (∀ k, fst (fst (RedisSource_BatchGet ctx ks r)) !! k
          = if bool_decide (k ∈ ks) then kv (client r) !! k else None)
  ∧ kv (client (snd (RedisSource_BatchGet ctx ks r))) = kv (client r)
  ∧ serving (snd (RedisSource_BatchGet ctx ks r)).
Proof.
  intros Hs. unfold RedisSource_BatchGet.
  destruct ks as [|k0 ks].
  { simpl. repeat split; done. }
  set (ks' := k0 :: ks).
  assert (∃ c, pipeline_Get ks' (client r)
               = ((map (reply (client r)) ks', firstErr (map (reply (client r)) ks')), c)
               ∧ kv c = kv (client r)
               ∧ Forall (fun f => f = None) (faults c)) as (c & -> & Hc & Hf).
  { unfold pipeline_Get, ks'. serving_cases r Hs; simpl; eexists; done. }
  destruct (batchGetLoop_served (client r) [] ks' ∅) as (tats & Hl & Ht).
  change (batchGetLoop ks' (map (reply (client r)) ks') 0 ∅ = inl tats) in Hl.
  rewrite Hl.
  destruct (firstErr_reply (client r) ks') as [->| ->]; simpl;
    (repeat split; [intros k; rewrite Ht, lookup_empty; by repeat case_match
                   |done|done]).
Qed.

(** A [BatchGet] that is served succeeds also when keys are missing: it
    returns the TATs of the requested keys that are stored, and nothing for
    the others; it changes no key. *)
Theorem RedisSource_BatchGet_served (ctx : context) (ks : list string)
    (r : RedisSource) :
  serving r →
  snd (fst (RedisSource_BatchGet ctx ks r)) = None
  ∧ (∀ k, k ∈ ks →
          fst (fst (RedisSource_BatchGet ctx ks r)) !! k = kv (client r) !! k)
  ∧ (∀ k, k ∉ ks → fst (fst (RedisSource_BatchGet ctx ks r)) !! k = None)
  ∧ kv (client (snd (RedisSource_BatchGet ctx ks r))) = kv (client r).
Proof.
  intros Hs.
  destruct (RedisSource_BatchGet_lookup ctx ks r Hs) as (He & Hl & Hk & _).
  repeat split; try done.
  - intros k Hin. by rewrite Hl, bool_decide_eq_true_2.
  - intros k Hin. by rewrite Hl, bool_decide_eq_false_2.
Qed.



(** No error is labelled "success". *)
Lemma resultForError_not_success (err : error) : resultForError err ≠ "success".
Proof. unfold resultForError. repeat (case_match; try discriminate). Qed.

(** Each call of [Set], [BatchSet], [Get], [Delete] and [Ping] observes one
    latency, under the name of the call, and its result is "success" exactly
    when the call returns no error. *)
Theorem latency_observed_once (ctx : context) (k : string) (tat : Time)
    (m : gmap string Time) (r : RedisSource) :
  (∃ res, latency (snd (RedisSource_Set ctx k tat r)) = latency r ++ [("set", res)]
          ∧ (res = "success" ↔ fst (RedisSource_Set ctx k tat r) = None))
  ∧ (∃ res, latency (snd (RedisSource_BatchSet ctx m r))
            = latency r ++ [("batchset", res)]
            ∧ (res = "success" ↔ fst (RedisSource_BatchSet ctx m r) = None))
  ∧ (∃ res, latency (snd (RedisSource_Get ctx k r)) = latency r ++ [("get", res)]
            ∧ (res = "success" ↔ snd (fst (RedisSource_Get ctx k r)) = None))
  ∧ (∃ res, latency (snd (RedisSource_Delete ctx k r))
            = latency r ++ [("delete", res)]
            ∧ (res = "success" ↔ fst (RedisSource_Delete ctx k r) = None))
  ∧ (∃ res, latency (snd (RedisSource_Ping ctx r)) = latency r ++ [("ping", res)]
            ∧ (res = "success" ↔ fst (RedisSource_Ping ctx r) = None)).
Proof.
  assert (∀ err : error, err ≠ None →
            resultForError err = "success" ↔ err = None) as Hres.
  { intros err Hn. split; [|done]. intros H.
    by apply resultForError_not_success in H. }
  repeat split.
  - unfold RedisSource_Set. destruct (client_Set k tat (client r)) as [err c].
    case_bool_decide as He; simpl; eexists; (split; [reflexivity|]).
    + by apply Hres.
    + split; [|done]. intros _. by destruct err; [destruct He|].
  - unfold RedisSource_BatchSet. destruct (pipeline_Set m (client r)) as [err c].
    case_bool_decide as He; simpl; eexists; (split; [reflexivity|]).
    + by apply Hres.
    + split; [|done]. intros _. by destruct err; [destruct He|].
  - unfold RedisSource_Get. destruct (client_Get k (client r)) as [[v err] c].
    case_bool_decide as He; [destruct (errors_Is err _)|]; simpl;
      eexists; (split; [reflexivity|]); try done.
    by apply Hres.
  - unfold RedisSource_Delete. destruct (client_Del k (client r)) as [err c].
    case_bool_decide as He; simpl; eexists; (split; [reflexivity|]).
    + by apply Hres.
    + split; [|done]. intros _. by destruct err; [destruct He|].
  - unfold RedisSource_Ping. destruct (client_Ping (client r)) as [err c].
    case_bool_decide as He; simpl; eexists; (split; [reflexivity|]).
    + by apply Hres.
    + split; [|done]. intros _. by destruct err; [destruct He|].
Qed.

(** The loop of [BatchGet] stops with an error only. *)
Lemma batchGetLoop_error (ks : list string) (results : list (Z * error))
    (i : nat) (tats : gmap string Time) (err : error) :
  batchGetLoop ks results i tats = inr err → err ≠ None.
Proof.
  revert i tats. induction results as [|[v e] rest IH]; intros i tats; simpl;
    [discriminate|].
  case_bool_decide as He.
  - destruct (errors_Is e _); [apply IH|]. by intros [= <-].
  - destruct (ks !! i); apply IH.
Qed.

Lemma pipeline_Get_served (ks : list string) (r : redis) :
  ks ≠ [] → Forall (fun f => f = None) (faults r) →
  pipeline_Get ks r
  = ((map (reply r) ks, firstErr (map (reply r) ks)), served r (kv r)).
Proof.
  intros Hne Hs. unfold pipeline_Get. destruct ks as [|k0 ks]; [done|].
  destruct (faults r) as [|[e|] fs]; [done| |done].
  by apply Forall_cons in Hs as [? _].
Qed.

Lemma firstErr_missing (r : redis) (ks : list string) (k : string) :
  k ∈ ks → kv r !! k = None → firstErr (map (reply r) ks) = Some redis_Nil.
Proof.
  intros Hin Hk. induction ks as [|a ks IH]; [by apply not_elem_of_nil in Hin|].
  simpl. unfold reply at 1.
  apply elem_of_cons in Hin as [<-|Hin]; [by rewrite Hk|].
  destruct (kv r !! a); [by apply IH|done].
Qed.

Lemma BatchGet_observes_twice (ctx : context) (ks : list string)
    (r : RedisSource) (k : string) :
  serving r → k ∈ ks → kv (client r) !! k = None →
  latency (snd (RedisSource_BatchGet ctx ks r))
  = latency r ++ [("batchget", "notFound"); ("batchget", "success")].
Proof.
  intros Hs Hin Hk. unfold RedisSource_BatchGet.
  rewrite pipeline_Get_served;
    [|by intros ->; apply not_elem_of_nil in Hin|exact Hs].
  rewrite (firstErr_missing _ _ _ Hin Hk).
  destruct (batchGetLoop_served (client r) [] ks ∅) as (tats & Hl & _).
  change (batchGetLoop ks (map (reply (client r)) ks) 0 ∅ = inl tats) in Hl.
  rewrite Hl. simpl. by rewrite <-app_assoc.
Qed.

Lemma BatchGet_observes (ctx : context) (ks : list string) (r : RedisSource) :
  ∃ new,
    latency (snd (RedisSource_BatchGet ctx ks r)) = latency r ++ new
    ∧ (length new = 1 ∨ length new = 2)%nat
    ∧ Forall (fun o => fst o = "batchget") new
    ∧ (snd <$> last new = Some "success"
       ↔ snd (fst (RedisSource_BatchGet ctx ks r)) = None).
Proof.
  unfold RedisSource_BatchGet.
  destruct (pipeline_Get ks (client r)) as [[results err] c] eqn:Hp.
  destruct err as [e|]; simpl.
  - destruct (errors_Is (Some e) (Some redis_Nil)) eqn:Hn; simpl.
    + destruct (batchGetLoop ks results 0 ∅) as [tats|err'] eqn:Hl; simpl.
      * exists [("batchget", resultForError (Some e)); ("batchget", "success")].
        rewrite <-app_assoc.
        split; [done|]. split; [by right|]. split; [by repeat constructor|done].
      * exists [("batchget", resultForError (Some e));
                ("batchget", resultForError err')].
        rewrite <-app_assoc.
        split; [done|]. split; [by right|]. split; [by repeat constructor|].
        split.
        -- simpl. intros [= H]. by apply resultForError_not_success in H.
        -- intros H. by apply batchGetLoop_error in Hl.
    + exists [("batchget", resultForError (Some e))].
      split; [done|]. split; [by left|]. split; [by repeat constructor|].
      split; [|done].
      simpl. intros [= H]. by apply resultForError_not_success in H.
  - destruct (batchGetLoop ks results 0 ∅) as [tats|err'] eqn:Hl; simpl.
    + exists [("batchget", "success")].
      split; [done|]. split; [by left|]. split; [by repeat constructor|done].
    + exists [("batchget", resultForError err')].
      split; [done|]. split; [by left|]. split; [by repeat constructor|].
      split.
      * simpl. intros [= H]. by apply resultForError_not_success in H.
      * intros H. by apply batchGetLoop_error in Hl.
Qed.

(** A call of [BatchGet] observes one latency or two, each under the name
    "batchget", and the result of the last one is "success" exactly when the
    call returns no error. It observes two when the pipeline reports
    [redis.Nil] without this being a failure: a [BatchGet] that is served and
    finds a key missing observes "notFound" and then "success". *)
Theorem BatchGet_observations (ctx : context) (ks : list string)
    (r : RedisSource) :
  ∃ new,
    latency (snd (RedisSource_BatchGet ctx ks r)) = latency r ++ new
    ∧ (length new = 1 ∨ length new = 2)%nat
    ∧ Forall (fun o => fst o = "batchget") new
    ∧ (snd <$> last new = Some "success"
       ↔ snd (fst (RedisSource_BatchGet ctx ks r)) = None)
    ∧ (serving r → (∃ k, k ∈ ks ∧ kv (client r) !! k = None) →
       new = [("batchget", "notFound"); ("batchget", "success")]).
Proof.
  destruct (BatchGet_observes ctx ks r) as (new & E & Hlen & Hf & Hl).
  exists new. repeat split; try done; try apply Hl.
  intros Hs (k & Hin & Hk).
  rewrite (BatchGet_observes_twice ctx ks r k Hs Hin Hk) in E.
  by apply app_inv_head in E.
Qed.

(** ** The limiter on the Redis source *)

Section OnRedis.
Context `{names : NameEnum}.

(** What [Spend] does on a Redis that serves. *)
Lemma Spend_redis (l : Limiter) (ctx : context) (bucket : BucketWithCost)
    (w : world RedisSource) (rl : limit) :
  serving (w_source w) →
  getLimit l (name bucket) (key bucket) = (rl, None) →
  0 < cost bucket → cost bucket ≤ Burst rl →
  ∃ t1 t2 d,
    w_time w ≤ t1 ∧ t1 ≤ t2
    ∧ d = match kv (client (w_source w)) !! key bucket with
          | Some tat => spendKernel rl tat (cost bucket) t1
          | None => spendKernel rl t1 (cost bucket) t2
          end
    ∧ fst (Spend l ctx bucket w) = (Some d, None)
    ∧ kv (client (w_source (snd (Spend l ctx bucket w))))
      = match kv (client (w_source w)) !! key bucket with
        | Some _ => if Allowed d
                    then <[key bucket := newTAT d]> (kv (client (w_source w)))
                    else kv (client (w_source w))
        | None => <[key bucket := newTAT d]> (kv (client (w_source w)))
        end
    ∧ serving (w_source (snd (Spend l ctx bucket w))).
Proof.
  intros Hs Hl Hc Hb. destruct w as [r cs t tk]. simpl in Hs.
  set (t0 := t + Z.of_N (hd 0%N tk)).
  set (t1 := t0 + Z.of_N (hd 0%N (tl tk))).
  set (t2 := t1 + Z.of_N (hd 0%N (tl (tl tk)))).
  unfold Spend. rewrite Hl.
  destruct (Z.leb_spec (cost bucket) 0); [lia|].
  destruct (Z.ltb_spec (Burst rl) (cost bucket)); [lia|].
  simpl.
  serving_cases r Hs.
  - unfold bind, deferred, bind, Get, invoke, Now at 1. simpl.
    unfold RedisSource_Get, client_Get, reply. simpl.
    destruct (m !! key bucket) as [tat|] eqn:Hk; simpl.
    + exists t1, t1, (spendKernel rl tat (cost bucket) t1).
      unfold maybeSpend, bind, Now, pure, Set_, invoke. simpl. fold t0 t1.
      destruct (Allowed (spendKernel rl tat (cost bucket) t1)) eqn:Ha; simpl;
        unfold serving; simpl; rewrite ?Ha;
        repeat split; try done; unfold t1, t0; lia.
    + exists t1, t2, (spendKernel rl t1 (cost bucket) t2).
      unfold initialize, maybeSpend, bind, Now, pure, Set_, invoke. simpl.
      fold t0 t1 t2. unfold serving. simpl.
      repeat split; try done; unfold t2, t1, t0; lia.
  - unfold bind, deferred, bind, Get, invoke, Now at 1. simpl.
    unfold RedisSource_Get, client_Get, reply. simpl.
    destruct (m !! key bucket) as [tat|] eqn:Hk; simpl.
    + exists t1, t1, (spendKernel rl tat (cost bucket) t1).
      unfold maybeSpend, bind, Now, pure, Set_, invoke. simpl. fold t0 t1.
      destruct (Allowed (spendKernel rl tat (cost bucket) t1)) eqn:Ha; simpl.
      * serving_tail fs Hs; simpl; unfold serving; simpl; rewrite ?Ha;
          repeat split; try done; unfold t1, t0; lia.
      * unfold serving; simpl; rewrite ?Ha;
          repeat split; try done; unfold t1, t0; lia.
    + exists t1, t2, (spendKernel rl t1 (cost bucket) t2).
      unfold initialize, maybeSpend, bind, Now, pure, Set_, invoke. simpl.
      fold t0 t1 t2.
      serving_tail fs Hs; simpl; unfold serving; simpl;
        repeat split; try done; unfold t2, t1, t0; lia.
Qed.





(** A [Reset] on a Redis that serves removes the key of the bucket, whether
    it was stored or not, and no other; a second [Reset] changes nothing
    more; and the [Spend] that follows finds no bucket: its decision is the
    kernel's on a TAT that is the time of the clock. *)
Theorem Reset_on_redis (l : Limiter) (ctx ctx' : context) (b : Bucket)
    (c : Z) (w : world RedisSource) (rl : limit) :
  serving (w_source w) →
  getLimit l (b_name b) (b_key b) = (rl, None) →
  0 < c → c ≤ Burst rl →
  fst (Reset l ctx b w) = None
  ∧ kv (client (w_source (snd (Reset l ctx b w))))
    = delete (b_key b) (kv (client (w_source w)))
  ∧ kv (client (w_source (snd (Reset l ctx' b (snd (Reset l ctx b w))))))
    = delete (b_key b) (kv (client (w_source w)))
  ∧ ∃ t1 t2,
      w_time w ≤ t1 ∧ t1 ≤ t2
      ∧ fst (Spend l ctx' {| name := b_name b; key := b_key b; cost := c |}
               (snd (Reset l ctx b w)))
        = (Some (spendKernel rl t1 c t2), None).
Proof.
  intros Hs Hl Hc Hb.
  assert (fst (Reset l ctx b w) = None
          ∧ kv (client (w_source (snd (Reset l ctx b w))))
            = delete (b_key b) (kv (client (w_source w)))
          ∧ serving (w_source (snd (Reset l ctx b w)))
          ∧ w_time (snd (Reset l ctx b w)) = w_time w) as (Hr & Hk & Hs' & Ht).
  { destruct w as [r cs t tk]. simpl in Hs.
    unfold Reset, Delete, invoke. simpl.
    unfold RedisSource_Delete, client_Del.
    serving_cases r Hs; simpl; unfold serving; by simpl. }
  assert (kv (client (w_source (snd (Reset l ctx' b (snd (Reset l ctx b w))))))
          = delete (b_key b) (kv (client (w_source (snd (Reset l ctx b w))))))
    as Hk2.
  { destruct (snd (Reset l ctx b w)) as [r cs t tk]. simpl in Hs'.
    unfold Reset, Delete, invoke. simpl.
    unfold RedisSource_Delete, client_Del.
    serving_cases r Hs'; by simpl. }
  split; [done|]. split; [done|].
  split; [by rewrite Hk2, Hk, delete_delete_eq|].
  destruct (Spend_redis l ctx' {| name := b_name b; key := b_key b; cost := c |}
              (snd (Reset l ctx b w)) rl Hs' Hl Hc Hb)
    as (t1 & t2 & d & H1 & H2 & Hd & Hsp & _).
  simpl in Hd. rewrite Hk, lookup_delete_eq in Hd. subst d.
  exists t1, t2. rewrite <-Ht. done.
Qed.





End OnRedis.

(** ** What [resultForError] tells apart *)

(** The label of an error, by what it is or wraps: "notFound" for [redis.Nil]
    itself; otherwise "deadlineExceeded" for what wraps
    [context.DeadlineExceeded], else "canceled" for what wraps
    [context.Canceled], else "timeout" for what wraps a network error that
    timed out, and "failed" for everything else. *)
Theorem resultForError_classifies (e : errval) :
  (e = redis_Nil → resultForError (Some e) = "notFound")
  ∧ (e ≠ redis_Nil →
     resultForError (Some e)
     = if errors_Is (Some e) (Some DeadlineExceeded) then "deadlineExceeded"
       else if errors_Is (Some e) (Some Canceled) then "canceled"
       else match errors_As_netError e with
            | Some true => "timeout"
            | _ => "failed"
            end).
Proof.
  split.
  - by intros ->.
  - intros Hne. unfold resultForError.
    rewrite errors_Is_Nil_swapped, bool_decide_eq_false_2 by done.
    destruct (errors_Is (Some e) (Some DeadlineExceeded)); [done|].
    destruct (errors_Is (Some e) (Some Canceled)); [done|].
    simpl. by destruct (errors_As_netError e) as [[|]|].
Qed.

(** ** The properties at work *)

Lemma Spend_existing_witness :
  let w := exampleWorld {[ key (bucketA 5) := 3 * second ]} [] 0 [] in
  ∃ d,
    newCalls w (snd (Spend (names := exampleNames) exampleLimiter Background
                       (bucketA 5) w))
    = [Call (WithoutCancel Background) (OpGet (key (bucketA 5)));
       Call (WithoutCancel Background) (OpSet (key (bucketA 5)) (newTAT d))].
Proof.
  intros w.
  edestruct (Spend_existing (names := exampleNames) exampleLimiter Background
               (bucketA 5) w perSecond)
    as (now & d & _ & _ & _ & H);
    [reflexivity|vm_compute; discriminate|reflexivity|reflexivity|].
  exists d. destruct (Allowed d); [apply H|].
  destruct H as (Hc & _). vm_compute in Hc. discriminate Hc.
Defined.

Lemma Spend_get_error_witness :
  let w := exampleWorld ∅ [Some (OtherError "connection refused")] 0 [] in
  fst (Spend (names := exampleNames) exampleLimiter Background (bucketA 5) w)
  = (None, Some (OtherError "connection refused")).
Proof.
  intros w.
  eapply (Spend_get_error (names := exampleNames) exampleLimiter Background
            (bucketA 5) w perSecond);
    [reflexivity|vm_compute; discriminate|reflexivity|reflexivity|reflexivity].
Defined.

Lemma Refund_existing_witness :
  let w := exampleWorld {[ key (bucketA 1) := 3 * second ]} [] 0 [] in
  ∃ d,
    newCalls w (snd (Refund (names := exampleNames) exampleLimiter Background
                       (bucketA 1) w))
    = [Call (WithoutCancel Background) (OpGet (key (bucketA 1)));
       Call (WithoutCancel Background) (OpSet (key (bucketA 1)) (newTAT d))].
Proof.
  intros w.
  edestruct (Refund_existing (names := exampleNames) exampleLimiter Background
               (bucketA 1) w perSecond)
    as (now & d & _ & _ & _ & H);
    [reflexivity|reflexivity|reflexivity|].
  exists d. destruct (Allowed d); [apply H|].
  destruct H as (Hc & _). vm_compute in Hc. discriminate Hc.
Defined.

Lemma Check_decision_witness :
  let w := exampleWorld {[ key (bucketA 8) := 3 * second ]} [] 0 [] in
  newCalls w (snd (Check (names := exampleNames) exampleLimiter Background
                     (bucketA 8) w))
  = [Call (WithoutCancel Background) (OpGet (key (bucketA 8)))].
Proof.
  intros w.
  eapply (Check_decision (names := exampleNames) exampleLimiter Background
            (bucketA 8) w perSecond);
    [vm_compute; discriminate|vm_compute; discriminate|reflexivity|reflexivity].
Defined.

Lemma disabled_limit_allows_witness :
  let w := exampleWorld ∅ [] 0 [] in
  Spend (names := exampleNames) exampleLimiter Background (bucketOff 100) w
  = ((Some disabledLimitDecision, None), w).
Proof.
  intros w.
  apply (proj2 (disabled_limit_allows (names := exampleNames) exampleLimiter
                  Background (bucketOff 100) w eq_refl)).
  reflexivity.
Defined.

Lemma invalid_name_rejected_witness :
  let w := exampleWorld ∅ [] 0 [] in
  Check (names := exampleNames) exampleLimiter Background (bucketBad 1) w
  = ((None, Some (errInvalidName 7)), w).
Proof.
  intros w.
  apply (proj1 (invalid_name_rejected (names := exampleNames) exampleLimiter
                  Background (bucketBad 1) w eq_refl)).
  vm_compute. discriminate.
Defined.

Lemma cost_over_burst_rejected_witness :
  let w := exampleWorld ∅ [] 0 [] in
  Spend (names := exampleNames) exampleLimiter Background (bucketA 11) w
  = ((None, Some ErrInvalidCostOverLimit), w).
Proof.
  intros w.
  apply (cost_over_burst_rejected (names := exampleNames) exampleLimiter
           Background (bucketA 11) w perSecond);
    reflexivity.
Defined.

Lemma BatchSpend_consolidates_witness :
  let w := exampleWorld ∅ [] 0 [] in
  let buckets := [bucketA 3; bucketB 5] in
  ∃ st w1,
    batchSpendEvaluate (names := exampleNames) exampleLimiter Background buckets w
      = (inr st, w1)
    ∧ 5 = foldr Z.min MaxInt64 (map Remaining (decisions st))
    ∧ map Remaining (decisions st) = [7; 5].
Proof.
  intros w buckets.
  destruct (BatchSpend_consolidates (names := exampleNames) exampleLimiter
              Background buckets w
              {| Allowed := true; Remaining := 5; RetryIn := 0;
                 ResetIn := 5 * second; newTAT := 5 * second |})
    as (st & w1 & He & _ & Hr & _); [reflexivity|].
  exists st, w1. split; [exact He|]. split; [exact Hr|].
  vm_compute in He. injection He as <- <-. reflexivity.
Defined.

Lemma BatchRefund_consolidates_witness :
  let w := exampleWorld {[ key (bucketA 1) := 3 * second;
                           key (bucketB 2) := 6 * second ]} [] 0 [] in
  let buckets := [bucketA 1; bucketB 2] in
  ∃ st w1,
    batchRefundEvaluate (names := exampleNames) exampleLimiter Background buckets w
      = (inr st, w1)
    ∧ 4 * second = foldr Z.max zeroTime (map newTAT (decisions st))
    ∧ map newTAT (decisions st) = [2 * second; 4 * second].
Proof.
  intros w buckets.
  destruct (BatchRefund_consolidates (names := exampleNames) exampleLimiter
              Background buckets w
              {| Allowed := true; Remaining := 6; RetryIn := 0;
                 ResetIn := 4 * second; newTAT := 4 * second |})
    as (st & w1 & He & _ & _ & _ & _ & Ht & _); [reflexivity|].
  exists st, w1. split; [exact He|]. split; [exact Ht|].
  vm_compute in He. injection He as <- <-. reflexivity.
Defined.

Lemma BatchRefund_nothing_to_refund_witness :
  let w := exampleWorld ∅ [] 0 [] in
  fst (BatchRefund (names := exampleNames) exampleLimiter Background
         [bucketA 1; bucketOff 1] w)
  = (Some {| Allowed := false; Remaining := MaxInt64; RetryIn := 0;
             ResetIn := 0; newTAT := zeroTime |}, None).
Proof.
  intros w.
  erewrite (BatchRefund_nothing_to_refund (names := exampleNames) exampleLimiter
              Background [bucketA 1; bucketOff 1] w);
    [reflexivity|done|repeat constructor|repeat constructor|reflexivity|].
  repeat constructor; intros [_ H]; vm_compute in H; discriminate H.
Defined.

Lemma batch_invalid_name_witness :
  let w := exampleWorld ∅ [] 0 [] in
  fst (BatchSpend (names := exampleNames) exampleLimiter Background
         ([bucketA 1] ++ bucketBad 1 :: [bucketB 1]) w)
  = (None, Some (errInvalidName 7)).
Proof.
  intros w.
  apply (batch_invalid_name (names := exampleNames) exampleLimiter Background
           [bucketA 1] [bucketB 1] (bucketBad 1) w);
    [repeat constructor|repeat constructor|reflexivity|reflexivity].
Defined.

Lemma batch_get_error_witness :
  let w := exampleWorld ∅ [Some (OtherError "connection refused")] 0 [] in
  fst (BatchSpend (names := exampleNames) exampleLimiter Background
         [bucketA 1] w)
  = (None, Some (OtherError "connection refused")).
Proof.
  intros w.
  edestruct (batch_get_error (names := exampleNames) exampleLimiter Background
               [bucketA 1] w) as [-> _];
    [done|repeat constructor|reflexivity|reflexivity].
Defined.

Lemma BatchSpend_batch_set_error_witness :
  let w := exampleWorld ∅ [None; Some (OtherError "connection reset")] 0 [] in
  fst (BatchSpend (names := exampleNames) exampleLimiter Background
         [bucketA 3] w)
  = (None, Some (OtherError "connection reset")).
Proof.
  intros w.
  assert (∃ st w1,
            batchSpendEvaluate (names := exampleNames) exampleLimiter Background
              [bucketA 3] w = (inr st, w1)) as (st & w1 & He)
    by (vm_compute; eexists _, _; reflexivity).
  apply (BatchSpend_batch_set_error (names := exampleNames) exampleLimiter
           Background [bucketA 3] w st w1 _ He);
    vm_compute in He; injection He as <- <-.
  - reflexivity.
  - vm_compute. intros H. discriminate H.
  - vm_compute. reflexivity.
Defined.

Lemma RedisSource_Get_served_witness :
  fst (RedisSource_Get Background (key (bucketA 1)) (exampleRedis ∅ []))
  = (zeroTime, Some ErrBucketNotFound).
Proof.
  destruct (RedisSource_Get_served Background (key (bucketA 1))
              (exampleRedis ∅ [])) as (H & _); [constructor|].
  exact H.
Defined.


Lemma RedisSource_Delete_Get_witness :
  fst (RedisSource_Get Background (key (bucketA 1))
         (snd (RedisSource_Delete Background (key (bucketA 1))
                 (exampleRedis {[ key (bucketA 1) := 3 * second ]} []))))
  = (zeroTime, Some ErrBucketNotFound).
Proof.
  destruct (RedisSource_Delete_Get Background Background (key (bucketA 1))
              (exampleRedis {[ key (bucketA 1) := 3 * second ]} []))
    as (_ & _ & H & _); [constructor|].
  exact H.
Defined.

Lemma RedisSource_BatchGet_served_witness :
  let r := exampleRedis {[ key (bucketA 1) := 3 * second ]} [] in
  let ks := [key (bucketA 1); key (bucketB 1)] in
  snd (fst (RedisSource_BatchGet Background ks r)) = None
  ∧ fst (fst (RedisSource_BatchGet Background ks r)) !! key (bucketB 1)
    = kv (client r) !! key (bucketB 1).
Proof.
  intros r ks.
  destruct (RedisSource_BatchGet_served Background ks r) as (He & Hl & _);
    [constructor|].
  split; [exact He|]. apply Hl. right. left.
Defined.





Lemma Reset_on_redis_witness :
  let w := exampleWorld {[ key (bucketA 1) := 9 * second ]} [] 0 [] in
  let b := {| b_name := 1; b_key := key (bucketA 1) |} in
  kv (client (w_source (snd (Reset exampleLimiter Background b w))))
  = delete (b_key b) (kv (client (w_source w))).
Proof.
  intros w b.
  destruct (Reset_on_redis (names := exampleNames) exampleLimiter Background
              Background b 5 w perSecond) as (_ & H & _);
    [constructor|reflexivity|reflexivity|vm_compute; discriminate|].
  exact H.
Defined.


